(** * pan_ssh_ciphers: audit and remediation of the SSH ciphers of a firewall

    A shallow embedding of [pan_ssh_ciphers.py].  The script talks to one
    device through the pandevice client library: it reads the configured
    ciphers of the services [mgmt] and [ha], compares them with a fixed
    list, writes the list when something is missing, commits, restarts the
    service, waits for the device, and finally restarts the whole system
    when any service was changed.

    The device and the client library are outside the script.  They are
    modelled as a deterministic oracle [Device]: every call receives the
    history of the calls made so far and answers with a value or with an
    exception.  The script itself runs in a state-and-exception monad [M]
    over a [World] that records the history of device calls and sleeps,
    the lines printed, and the list objects the script mutates. *)

From stdpp Require Import base option list strings gmap.

Set Warnings "-register-all".
Local Open Scope string_scope.
Local Open Scope list_scope.

(** ** Python values the script handles *)

(** The exceptions that can travel through the script.  [LibraryError]
    stands for any exception class of the client library, named by its
    qualified name, e.g. [pandevice.errors.PanURLError]. *)
Inductive exn : Type :=
  | NameError (name : string)
  | UnboundLocalError (name : string)
  | AttributeError (msg : string)
  | KeyError (key : string)
  | SystemExit
  | LibraryError (qualname : string).

#[global] Instance exn_eq_dec : EqDecision exn.
Proof. solve_decision. Defined.

(** What a name of the module namespace, or an attribute reached from it,
    denotes. *)
Inductive pyval : Type :=
  | PyModule (name : string)
  | PyFunction (name : string)
  | PyAttr (owner : pyval) (attr : string).

Fixpoint qualname (v : pyval) : string :=
  match v with
  | PyModule n => n
  | PyFunction n => n
  | PyAttr o a => qualname o +:+ "." +:+ a
  end.

(** An [xml.etree] element: tag, attributes, text and children. *)
Inductive Element : Type :=
  | Elem (tag : string) (attrib : list (string * string))
         (text : option string) (children : list Element).

Definition tag (e : Element) : string :=
  match e with Elem t _ _ _ => t end.
Definition attrib (e : Element) : list (string * string) :=
  match e with Elem _ a _ _ => a end.
Definition text (e : Element) : option string :=
  match e with Elem _ _ x _ => x end.
Definition children (e : Element) : list Element :=
  match e with Elem _ _ _ c => c end.

(** [dict.get]: the value of the first binding of the key, or [None]. *)
Fixpoint dict_get (d : list (string * string)) (k : string) : option string :=
  match d with
  | [] => None
  | (k', v) :: d' => if bool_decide (k' = k) then Some v else dict_get d' k
  end.

(** The steps of an ElementPath expression, already split at the slashes.
    [./result/mgmt/] is [Self; Child "result"; Child "mgmt"; Star]: a path
    that ends in a slash gets an implicit star. The script forms its paths
    by putting the name of the service into the text; the steps used below
    are what ElementPath makes of that text when the name is a plain tag,
    as ['mgmt'] and ['ha'] are, the only services [main] has. A name that
    holds path syntax (a star, a slash) would be read by ElementPath as
    more steps, and is not covered. *)
Inductive step : Type :=
  | Self
  | Child (t : string)
  | Star.

Definition select (s : step) (result : list Element) : list Element :=
  match s with
  | Self => result
  | Child t => e ← result; filter (λ c, tag c = t) (children e)
  | Star => e ← result; children e
  end.

Definition findall (path : list step) (elem : Element) : list Element :=
  foldl (λ result s, select s result) [elem] path.

Definition find (path : list step) (elem : Element) : option Element :=
  head (findall path elem).

(** [str(x)] of an optional string: [None] prints as the word None. *)
Definition py_str (x : option string) : string :=
  match x with Some s => s | None => "None" end.

Definition NL : string := String (Ascii.ascii_of_nat 10) EmptyString.

(** ** The device *)

(** A handle on the firewall, as returned by [firewall.Firewall]. *)
Definition Firewall : Type := nat.

(** The [messages] entry of the dictionary returned by a commit: a list of
    messages, or a single value (given by its printed form). *)
Inductive messages : Type :=
  | MsgList (l : list string)
  | MsgOther (repr : string).

(** Calls on the device, and sleeps, in the order they are made. *)
Inductive Event : Type :=
  | EvConnect (hostname api_key : string)
  | EvGet (fw : Firewall) (xpath : string)
  | EvSet (fw : Firewall) (xpath element : string)
  | EvCommit (fw : Firewall) (sync : bool) (cmd : string)
  | EvOp (fw : Firewall) (cmd : string) (cmd_xml : bool)
  | EvSleep (seconds : nat).

#[global] Instance Event_eq_dec : EqDecision Event.
Proof. solve_decision. Defined.

(** The answers of the device and of the client library.  Each takes the
    history of the events before the call. *)
Record Device : Type := {
  firewall_Firewall : list Event → string → string → exn + Firewall;
  xapi_get : list Event → Firewall → string → exn + Element;
  xapi_set : list Event → Firewall → string → string → exn + Element;
  fw_commit : list Event → Firewall → bool → string → exn + messages;
  fw_op : list Event → Firewall → string → bool → exn + Element
}.

(** ** The state of a run *)

(** A reference to a list object: its index in the heap. *)
Abbreviation loc := nat (only parsing).

Record World : Type := {
  history : list Event;
  stdout : list string;
  heap : list (list string)
}.

Definition init_world : World :=
  {| history := []; stdout := []; heap := [] |}.

Inductive result (A : Type) : Type :=
  | Ok (a : A)
  | Raise (e : exn)
  | OutOfFuel.
Arguments Ok {A} a.
Arguments Raise {A} e.
Arguments OutOfFuel {A}.

Definition M (A : Type) : Type := World → result A * World.

#[global] Instance M_ret : MRet M := λ A a w, (Ok a, w).

#[global] Instance M_bind : MBind M := λ A B f m w,
  match m w with
  | (Ok a, w') => f a w'
  | (Raise e, w') => (Raise e, w')
  | (OutOfFuel, w') => (OutOfFuel, w')
  end.

Definition raise {A} (e : exn) : M A := λ w, (Raise e, w).

Definition out_of_fuel {A} : M A := λ w, (OutOfFuel, w).

(** Whether an exception is an instance of a class reached from the module
    namespace: a library exception is one of the class of its qualified
    name (subclassing inside the library is not modelled). *)
Definition isinstance (e : exn) (cls : pyval) : bool :=
  match e with
  | LibraryError q => bool_decide (q = qualname cls)
  | _ => false
  end.

(** [try: body / except cls: handler / else: orelse].  The expression
    [cls] is evaluated only once an exception reaches the clause. An
    exception that is not an instance of the class travels on. *)
Definition try_except_else {A B} (body : M A) (cls : M pyval)
    (handler : M B) (orelse : A → M B) : M B := λ w,
  match body w with
  | (Ok a, w') => orelse a w'
  | (Raise e, w') =>
      (c ← cls; if isinstance e c then handler else raise e) w'
  | (OutOfFuel, w') => (OutOfFuel, w')
  end.

(** [try: body / except: handler], the bare clause that catches all. *)
Definition try_except_all {A} (body : M A) (handler : M A) : M A := λ w,
  match body w with
  | (Raise e, w') => handler w'
  | r => r
  end.

Definition print (s : string) : M unit := λ w,
  (Ok tt, {| history := history w; stdout := stdout w ++ [s]; heap := heap w |}).

Definition log (ev : Event) (w : World) : World :=
  {| history := history w ++ [ev]; stdout := stdout w; heap := heap w |}.

(** A call that leaves the script: it is recorded, and the oracle's answer
    for the history before it is returned or raised. *)
Definition external {A} (ev : Event) (answer : list Event → exn + A) : M A :=
  λ w, match answer (history w) with
       | inl e => (Raise e, log ev w)
       | inr a => (Ok a, log ev w)
       end.

(** The passing of time, as the device sees it. *)
Definition sleep (seconds : nat) : M unit := λ w,
  (Ok tt, log (EvSleep seconds) w).

(** List objects: [[]] allocates, [append] mutates in place. A reference
    is only ever obtained from an allocation, so it is always in range. *)
Definition list_new (init : list string) : M loc := λ w,
  (Ok (length (heap w)),
   {| history := history w; stdout := stdout w; heap := heap w ++ [init] |}).

Definition list_append (l : loc) (x : string) : M unit := λ w,
  (Ok tt,
   {| history := history w; stdout := stdout w;
      heap := alter (λ xs, xs ++ [x]) l (heap w) |}).

Definition list_read (l : loc) : M (list string) := λ w,
  (Ok (default [] (heap w !! l)), w).

(** ** The module namespace *)

(** The names bound at module level: by the import statements
    ([import sys], [import time], [import config],
    [from pandevice import base], [... firewall], [... errors]) and by the
    function definitions.  A [from pandevice import x] binds [x] only. *)
Definition module_globals : list (string * pyval) :=
  [ ("sys", PyModule "sys");
    ("time", PyModule "time");
    ("config", PyModule "config");
    ("base", PyModule "pandevice.base");
    ("firewall", PyModule "pandevice.firewall");
    ("errors", PyModule "pandevice.errors");
    ("get_fw_connection", PyFunction "get_fw_connection");
    ("check_ciphers", PyFunction "check_ciphers");
    ("compare_ciphers", PyFunction "compare_ciphers");
    ("set_ciphers", PyFunction "set_ciphers");
    ("commit_config", PyFunction "commit_config");
    ("restart_service", PyFunction "restart_service");
    ("restart_system", PyFunction "restart_system");
    ("check_device_up", PyFunction "check_device_up");
    ("main", PyFunction "main") ].

Fixpoint lookup_name (ns : list (string * pyval)) (name : string) : option pyval :=
  match ns with
  | [] => None
  | (n, v) :: ns' => if bool_decide (n = name) then Some v else lookup_name ns' name
  end.

Definition load_global (name : string) : M pyval :=
  match lookup_name module_globals name with
  | Some v => mret v
  | None => raise (NameError name)
  end.

Definition getattr (v : pyval) (attr : string) : M pyval :=
  match v with
  | PyFunction _ => raise (AttributeError attr)
  | _ => mret (PyAttr v attr)
  end.

(** [for x in l: body x]. An exception in one round ends the loop. *)
Fixpoint for_each {A} (l : list A) (body : A → M unit) : M unit :=
  match l with
  | [] => mret tt
  | x :: l' => body x;; for_each l' body
  end.

(** ** The script *)

Section script.
Context (dev : Device).
(** The dictionary [config.paloalto] of the local configuration module. *)
Context (paloalto : gmap string string).

(** [config.paloalto[k]] *)
Definition config_paloalto (k : string) : M string :=
  _ ← load_global "config";
  match paloalto !! k with
  | Some v => mret v
  | None => raise (KeyError k)
  end.

(** [time.sleep(seconds)] *)
Definition time_sleep (seconds : nat) : M unit :=
  _ ← load_global "time";
  sleep seconds.

Definition get_fw_connection : M Firewall :=
  key ← config_paloalto "key";
  fw_ip ← config_paloalto "firewall_ip";
  _ ← load_global "firewall";
  fw ← external (EvConnect fw_ip key) (λ h, firewall_Firewall dev h fw_ip key);
  mret fw.

Definition base_xpath (service : string) : string :=
  "/config/devices/entry[@name='localhost.localdomain']"
  +:+ "/deviceconfig/system/ssh/ciphers/" +:+ service.

(** The path [./result/{service}/] of [findall] is given by its steps, as
    ElementPath reads it for a service that is a plain tag name (see
    [step]). *)
Definition check_ciphers (fw : Firewall) (service : string) : M (list string) :=
  print (NL +:+ "Checking " +:+ service +:+ " ciphers..." +:+ NL);;
  results ← external (EvGet fw (base_xpath service))
                     (λ h, xapi_get dev h fw (base_xpath service));
  let xml_list := findall [Self; Child "result"; Child service; Star] results in
  let set_ciphers_list :=
    foldl (λ acc item, acc ++ [tag item]) [] xml_list in
  mret set_ciphers_list.

Definition compare_ciphers (cipher_list : list string) (service : string)
    (set_ciphers_list : list string) (results_list : loc) : M (loc * string) :=
  print ("Comparing " +:+ service +:+ " ciphers..." +:+ NL);;
  status ←
    (if bool_decide ((list_to_set cipher_list : gset string)
                       ⊆ list_to_set set_ciphers_list)
     then
       print ("Ciphers match!" +:+ NL);;
       let status := "ciphers_set" in
       list_append results_list status;;
       mret status
     else
       print ("Ciphers need to be set..." +:+ NL);;
       let status := "ciphers_not_set" in
       list_append results_list status;;
       mret status);
  mret (results_list, status).

Definition set_ciphers (fw : Firewall) (service : string)
    (cipher_list : list string) : M unit :=
  print ("Setting " +:+ service +:+ " ciphers..." +:+ NL);;
  for_each cipher_list (λ cipher,
    let entry_element := "<" +:+ cipher +:+ "/>" in
    results ← external (EvSet fw (base_xpath service) entry_element)
                (λ h, xapi_set dev h fw (base_xpath service) entry_element);
    let xml_list := findall [Self] results in
    for_each xml_list (λ item,
      let status := dict_get (attrib item) "status" in
      print (cipher +:+ " install " +:+ py_str status))).

Definition commit_command : string :=
  "<commit><description>SSH Ciphers Commit</description></commit>".

Definition commit_config (fw : Firewall) : M unit :=
  print (NL +:+ "Committing config...");;
  results ← external (EvCommit fw true commit_command)
              (λ h, fw_commit dev h fw true commit_command);
  print ("Commit Status:" +:+ NL);;
  match results with
  | MsgList l => for_each l (λ message, print (message +:+ NL))
  | MsgOther repr => print repr
  end.

Definition restart_service_command (service : string) : string :=
  "<set><ssh><service-restart><" +:+ service +:+ "></" +:+ service
  +:+ "></service-restart>" +:+ "</ssh></set>".

Definition restart_service (fw : Firewall) (service : string) : M unit :=
  print (NL +:+ "Restarting " +:+ service +:+ " service..." +:+ NL);;
  results ← external (EvOp fw (restart_service_command service) false)
              (λ h, fw_op dev h fw (restart_service_command service) false);
  let xml_list := findall [Self] results in
  for_each xml_list (λ item,
    let status := dict_get (attrib item) "status" in
    message ←
      match find [Self; Child "result"; Child "member"] item with
      | Some member => mret (text member)
      | None => raise (AttributeError "text")
      end;
    print (py_str message +:+ "...  " +:+ py_str status +:+ NL)).

Definition restart_system_command : string :=
  "<request><restart><system></system></restart></request>".

Definition restart_system (fw : Firewall) : M unit :=
  print ("Restarting system..." +:+ NL);;
  try_except_all
    (_ ← external (EvOp fw restart_system_command false)
           (λ h, fw_op dev h fw restart_system_command false);
     mret tt)
    (_ ← load_global "sys";
     raise SystemExit).

(** The [while status == 'down'] loop of [check_device_up], with the
    variables [status] and [fw] it carries ([fw] is unbound at first). *)
Fixpoint while_down (fuel : nat) (status : string) (fw : option Firewall)
    : M (option Firewall) :=
  if bool_decide (status = "down") then
    match fuel with
    | 0 => out_of_fuel
    | S fuel' =>
        '(status', fw') ←
          try_except_else
            (print "Connecting to the device...";;
             get_fw_connection)
            (p ← load_global "pandevice";
             e ← getattr p "errors";
             getattr e "PanURLError")
            (print "The device is still down.  Continuing to check...";;
             let status := "down" in
             time_sleep 60;;
             mret (status, fw))
            (λ fw',
             print ("The device is back up.  Continuing to next step..." +:+ NL);;
             let status := "up" in
             mret (status, Some fw'));
        while_down fuel' status' fw'
    end
  else mret fw.

Definition check_device_up (fuel : nat) : M Firewall :=
  print ("Checking if device is up..." +:+ NL);;
  time_sleep 60;;
  let status := "down" in
  fw ← while_down fuel status None;
  match fw with
  | Some fw => mret fw
  | None => raise (UnboundLocalError "fw")
  end.

Definition service_list : list string := ["mgmt"; "ha"].

Definition cipher_list : list string :=
  ["aes128-cbc"; "aes192-cbc"; "aes256-cbc"; "aes128-ctr";
   "aes192-ctr"; "aes256-ctr"; "aes128-gcm"; "aes256-gcm"].

(** One round of the [for service in service_list] loop of [main]. It
    rebinds [fw], [results_list] and [status]. *)
Definition main_loop_body (fuel : nat) (service : string) (fw : Firewall)
    (results_list : loc) : M (Firewall * loc * string) :=
  set_ciphers_list ← check_ciphers fw service;
  '(results_list, status) ←
    compare_ciphers cipher_list service set_ciphers_list results_list;
  fw ←
    (if bool_decide (status = "ciphers_not_set") then
       set_ciphers fw service cipher_list;;
       commit_config fw;;
       restart_service fw service;;
       check_device_up fuel
     else mret fw);
  mret (fw, results_list, status).

Fixpoint main_loop (fuel : nat) (services : list string) (fw : Firewall)
    (results_list : loc) : M (Firewall * loc) :=
  match services with
  | [] => mret (fw, results_list)
  | service :: services' =>
      '(fw, results_list, _) ← main_loop_body fuel service fw results_list;
      main_loop fuel services' fw results_list
  end.

(** [results_list = list(set(results_list))]: a new list object with the
    distinct entries of the old one. *)
Definition list_of_set (results_list : loc) : M loc :=
  xs ← list_read results_list;
  list_new (elements (list_to_set xs : gset string)).

Definition main (fuel : nat) : M unit :=
  fw ← get_fw_connection;
  results_list ← list_new [];
  '(fw, results_list) ← main_loop fuel service_list fw results_list;
  results_list ← list_of_set results_list;
  entries ← list_read results_list;
  if bool_decide ("ciphers_not_set" ∈ entries)
  then restart_system fw
  else mret tt.

End script.

(** ** Views of the script *)

(** Parts of the functions above, under names of their own, for the
    statements below. Each is tied to the function it comes from by an
    equation ([check_ciphers_run], [set_ciphers_unfold], [main_phases]). *)

(** The tags that [check_ciphers] reads off a response. *)
Definition configured_ciphers (service : string) (results : Element) : list string :=
  tag <$> findall [Self; Child "result"; Child service; Star] results.

(** The write that adds one cipher to a service. *)
Definition add_cipher (fw : Firewall) (service cipher : string) : Event :=
  EvSet fw (base_xpath service) ("<" +:+ cipher +:+ "/>").

(** The body of the loop of [set_ciphers]. *)
Definition set_cipher (dev : Device) (fw : Firewall) (service cipher : string)
    : M unit :=
  results ← external (add_cipher fw service cipher)
              (λ h, xapi_set dev h fw (base_xpath service) ("<" +:+ cipher +:+ "/>"));
  for_each (findall [Self] results) (λ item,
    print (cipher +:+ " install " +:+ py_str (dict_get (attrib item) "status"))).

(** The connection and the empty accumulator. *)
Definition main_prelude (dev : Device) (paloalto : gmap string string)
    : M (Firewall * loc) :=
  fw ← get_fw_connection dev paloalto;
  results_list ← list_new [];
  mret (fw, results_list).

(** The two rounds of the loop, keeping the status of each round. *)
Definition services_phase (dev : Device) (paloalto : gmap string string)
    (fuel : nat) : M (Firewall * loc * string * string) :=
  '(fw, results_list) ← main_prelude dev paloalto;
  '(fw, results_list, status_mgmt) ←
    main_loop_body dev paloalto fuel "mgmt" fw results_list;
  '(fw, results_list, status_ha) ←
    main_loop_body dev paloalto fuel "ha" fw results_list;
  mret (fw, results_list, status_mgmt, status_ha).

(** What [main] does after the loop. *)
Definition escalator (dev : Device) (fw : Firewall) (results_list : loc) : M unit :=
  results_list ← list_of_set results_list;
  entries ← list_read results_list;
  if bool_decide ("ciphers_not_set" ∈ entries)
  then restart_system dev fw
  else mret tt.

(** ** Properties of runs *)

(** [steps R m]: every run of [m] takes the world to one related by [R]. *)
Definition steps (R : relation World) {A} (m : M A) : Prop :=
  ∀ w, R w (m w).2.

(** The list objects are left as they are. *)
Definition same_heap : relation World := λ w w', heap w' = heap w.

(** The history grows by events that all satisfy [P]. *)
Definition extends (P : Event → Prop) : relation World := λ w w',
  ∃ evs, history w' = history w ++ evs ∧ Forall P evs.

Definition is_connect (ev : Event) : bool :=
  match ev with EvConnect _ _ => true | _ => false end.


Definition is_system_restart (ev : Event) : bool :=
  match ev with
  | EvOp _ cmd _ => bool_decide (cmd = restart_system_command)
  | _ => false
  end.

Definition count_events (p : Event → bool) (h : list Event) : nat :=
  length (filter (λ ev, p ev) h).

(** An event other than the system restart. *)
Definition quiet (ev : Event) : Prop := is_system_restart ev = false.

(** The exception, if any, with which the device answers an event that
    comes after the history [h]. *)
Definition answer (dev : Device) (h : list Event) (ev : Event) : option exn :=
  let raised {A} (r : exn + A) : option exn :=
    match r with inl e => Some e | inr _ => None end in
  match ev with
  | EvConnect fw_ip key => raised (firewall_Firewall dev h fw_ip key)
  | EvGet fw xpath => raised (xapi_get dev h fw xpath)
  | EvSet fw xpath element => raised (xapi_set dev h fw xpath element)
  | EvCommit fw sync cmd => raised (fw_commit dev h fw sync cmd)
  | EvOp fw cmd cmd_xml => raised (fw_op dev h fw cmd cmd_xml)
  | EvSleep _ => None
  end.

(** [fail_stop dev Q m]: in every run of [m], an event that the device
    answers with an exception [e] is the last event of the run, and the run
    ends with an exception [e'] that [Q] relates to the event and [e]. *)
Definition fail_stop (dev : Device) (Q : Event → exn → exn → Prop) {A}
    (m : M A) : Prop :=
  ∀ w, ∃ evs,
    history (m w).2 = history w ++ evs ∧
    ∀ pre ev post e,
      evs = pre ++ ev :: post →
      answer dev (history w ++ pre) ev = Some e →
      post = [] ∧ ∃ e', (m w).1 = Raise e' ∧ Q ev e e'.

(** The exception of the device reaches the caller unchanged. *)
Definition plain (ev : Event) (e e' : exn) : Prop := quiet ev ∧ e' = e.

(** A connection that raises, raises as it is. *)
Definition connecting (ev : Event) (e e' : exn) : Prop :=
  is_connect ev = true ∧ e' = e.

(** What becomes of an exception of the device in a run of [main]. *)
Definition outcome_of (ev : Event) (e e' : exn) : Prop :=
  match ev with
  | EvConnect _ _ => e' = e ∨ e' = NameError "pandevice"
  | EvOp _ cmd _ =>
      if bool_decide (cmd = restart_system_command) then e' = SystemExit else e' = e
  | _ => e' = e
  end.

(** One of the calls [set_ciphers], [commit_config], [restart_service] of
    a round, made in this order from the world [w], raises [e] and leaves
    the world [w']. *)
Definition remediation_raises (dev : Device) (fw : Firewall) (service : string)
    (w : World) (e : exn) (w' : World) : Prop :=
  set_ciphers dev fw service cipher_list w = (Raise e, w') ∨
  ∃ w1, set_ciphers dev fw service cipher_list w = (Ok tt, w1) ∧
    (commit_config dev fw w1 = (Raise e, w') ∨
     ∃ w2, commit_config dev fw w1 = (Ok tt, w2) ∧
       restart_service dev fw service w2 = (Raise e, w')).

(** The round of a service finds it wanting, and its remediation raises. *)
Definition round_raises (dev : Device) (service : string) (fw : Firewall)
    (rl : loc) (w : World) (e : exn) (w' : World) : Prop :=
  ∃ C w1,
    check_ciphers dev fw service w = (Ok C, w1) ∧
    ¬ cipher_list ⊆ C ∧
    remediation_raises dev fw service
      (compare_ciphers cipher_list service C rl w1).2 e w'.

(** A device that accepts everything and answers the restart of a service
    without the [result/member] node that [restart_service] reads. *)
Definition terse_device : Device := {|
  firewall_Firewall _ _ _ := inr 0;
  xapi_get _ _ _ := inr (Elem "response" [("status", "success")] None []);
  xapi_set _ _ _ _ := inr (Elem "response" [("status", "success")] None []);
  fw_commit _ _ _ _ := inr (MsgOther "None");
  fw_op _ _ _ _ := inr (Elem "response" [("status", "success")] None [])
|}.

(** [m], with any exception it raises replaced by [e0]. *)
Definition reraise_as (e0 : exn) {A} (m : M A) : M A := λ w,
  match m w with
  | (Raise _, w') => (Raise e0, w')
  | r => r
  end.

(** [total m]: no run of [m] stops for lack of fuel. *)
Definition total {A} (m : M A) : Prop := ∀ w, (m w).1 ≠ OutOfFuel.

(** ** Sample responses and devices *)

Definition leaf (t : string) : Element := Elem t [] None [].

(** The answer to a read of a service: the entries under
    [response/result/service]. *)
Definition get_response (service : string) (entries : list string) : Element :=
  Elem "response" [("status", "success")] None
    [Elem "result" [] None [Elem service [] None (leaf <$> entries)]].

(** The answer to a write or an operational command. *)
Definition ok_response : Element :=
  Elem "response" [("status", "success")] None
    [Elem "result" [] None [Elem "member" [] (Some "done") []]].

Definition sample_config : gmap string string :=
  <["key" := "secret"]> (<["firewall_ip" := "192.0.2.1"]> ∅).

(** A device that answers every read with the given response. *)
Definition reading_device (results : Element) : Device := {|
  firewall_Firewall _ _ _ := inr 0;
  xapi_get _ _ _ := inr results;
  xapi_set _ _ _ _ := inr ok_response;
  fw_commit _ _ _ _ := inr (MsgList ["Configuration committed successfully"]);
  fw_op _ _ _ _ := inr ok_response
|}.

(** A device whose reads raise. *)
Definition unreadable_device : Device := {|
  firewall_Firewall _ _ _ := inr 0;
  xapi_get _ _ _ := inl (LibraryError "pandevice.errors.PanDeviceXapiError");
  xapi_set _ _ _ _ := inr ok_response;
  fw_commit _ _ _ _ := inr (MsgList []);
  fw_op _ _ _ _ := inr ok_response
|}.

(** A device on which [mgmt] and [ha] have the given ciphers configured,
    and which accepts every write, commit and command. *)
Definition configured_device (mgmt ha : list string) : Device := {|
  firewall_Firewall _ _ _ := inr 0;
  xapi_get _ _ xpath :=
    inr (if bool_decide (xpath = base_xpath "mgmt")
         then get_response "mgmt" mgmt else get_response "ha" ha);
  xapi_set _ _ _ _ := inr ok_response;
  fw_commit _ _ _ _ := inr (MsgList ["Configuration committed successfully"]);
  fw_op _ _ _ _ := inr ok_response
|}.

(** A device that refuses the first [n] connections with
    [pandevice.errors.PanURLError] and accepts the next. *)
Definition recovering_device (n : nat) : Device := {|
  firewall_Firewall h _ _ :=
    if decide (count_events is_connect h < n)
    then inl (LibraryError "pandevice.errors.PanURLError")
    else inr (count_events is_connect h);
  xapi_get _ _ _ := inr (get_response "mgmt" []);
  xapi_set _ _ _ _ := inr ok_response;
  fw_commit _ _ _ _ := inr (MsgList []);
  fw_op _ _ _ _ := inr ok_response
|}.


(** A device on which no cipher is configured, which accepts the writes
    and rejects the commit. *)
Definition commit_rejecting_device : Device := {|
  firewall_Firewall _ _ _ := inr 0;
  xapi_get _ _ _ := inr (get_response "mgmt" []);
  xapi_set _ _ _ _ := inr ok_response;
  fw_commit _ _ _ _ := inl (LibraryError "pandevice.errors.PanCommitFailed");
  fw_op _ _ _ _ := inr ok_response
|}.

(** A device on which no cipher is configured and which goes away on the
    system restart. *)
Definition rebooting_device : Device := {|
  firewall_Firewall _ _ _ := inr 0;
  xapi_get _ _ _ := inr (get_response "mgmt" []);
  xapi_set _ _ _ _ := inr ok_response;
  fw_commit _ _ _ _ := inr (MsgList []);
  fw_op _ _ cmd _ :=
    if bool_decide (cmd = restart_system_command)
    then inl (LibraryError "pandevice.errors.PanURLError")
    else inr ok_response
|}.

(** ** Order, service and handle of the calls *)

(** The calls of the remediation of a service, in the order in which
    [main] makes them. *)
Definition remediation_script (fw : Firewall) (service fw_ip key : string)
    : list Event :=
  (add_cipher fw service <$> cipher_list)
  ++ [EvCommit fw true commit_command;
      EvOp fw (restart_service_command service) false;
      EvSleep 60;
      EvConnect fw_ip key].

(** The calls of the round of a service: the read, then the remediation. *)
Definition round_script (fw : Firewall) (service fw_ip key : string) : list Event :=
  EvGet fw (base_xpath service) :: remediation_script fw service fw_ip key.

(** [follows script m]: the events of a run of [m] are the first events of
    [script], in order, and all of [script] when the run returns. *)
Definition follows (script : list Event) {A} (m : M A) : Prop :=
  ∀ w, ∃ k : nat,
    (k ≤ length script)%nat ∧
    history (m w).2 = history w ++ take k script ∧
    (∀ a, (m w).1 = Ok a → k = length script).

(** An event that concerns the given service, if it concerns one: a read
    or a write under its path, the restart of that service, or the commit
    of [commit_config]. *)
Definition about_service (service : string) (ev : Event) : Prop :=
  match ev with
  | EvGet _ xpath => xpath = base_xpath service
  | EvSet _ xpath _ => xpath = base_xpath service
  | EvCommit _ sync cmd => sync = true ∧ cmd = commit_command
  | EvOp _ cmd cmd_xml => cmd = restart_service_command service ∧ cmd_xml = false
  | EvConnect _ _ => True
  | EvSleep seconds => seconds = 60
  end.

(** The handle on which a call is made. *)
Definition handle_of (ev : Event) : option Firewall :=
  match ev with
  | EvGet fw _ => Some fw
  | EvSet fw _ _ => Some fw
  | EvCommit fw _ _ => Some fw
  | EvOp fw _ _ => Some fw
  | EvConnect _ _ => None
  | EvSleep _ => None
  end.

(** A call on the handle [fw], or a sleep. *)
Definition uses (fw : Firewall) (ev : Event) : Prop :=
  match ev with
  | EvConnect _ _ => False
  | EvSleep _ => True
  | _ => handle_of ev = Some fw
  end.

(** The handle in hand after the event [ev], which comes after the history
    [pre]: a connection replaces it by the handle it returns (by none when
    it raises). *)
Definition next_handle (dev : Device) (pre : list Event) (cur : option Firewall)
    (ev : Event) : option Firewall :=
  match ev with
  | EvConnect fw_ip key =>
      match firewall_Firewall dev pre fw_ip key with
      | inl _ => None
      | inr fw => Some fw
      end
  | _ => cur
  end.

(** The handle in hand after the events [h], which come after [pre]. *)
Fixpoint handle_after (dev : Device) (pre : list Event) (cur : option Firewall)
    (h : list Event) : option Firewall :=
  match h with
  | [] => cur
  | ev :: h' => handle_after dev (pre ++ [ev]) (next_handle dev pre cur ev) h'
  end.

(** Every call of [h] is made on the handle then in hand: the one returned
    by the latest connection before the call. *)
Fixpoint well_handled (dev : Device) (pre : list Event) (cur : option Firewall)
    (h : list Event) : bool :=
  match h with
  | [] => true
  | ev :: h' =>
      match handle_of ev with
      | Some fw => bool_decide (cur = Some fw)
      | None => true
      end
      && well_handled dev (pre ++ [ev]) (next_handle dev pre cur ev) h'
  end.

(** [tracks dev cur m next]: started with the handle [cur] in hand, a run
    of [m] makes every call on the handle then in hand, and when it returns
    [a] the handle in hand is [next a]. *)
Definition tracks (dev : Device) (cur : option Firewall) {A} (m : M A)
    (next : A → option Firewall) : Prop :=
  ∀ w, ∃ evs,
    history (m w).2 = history w ++ evs ∧
    well_handled dev (history w) cur evs = true ∧
    (∀ a, (m w).1 = Ok a → handle_after dev (history w) cur evs = next a).

(** ** Running computations *)

Lemma bind_Ok {A B} (m : M A) (f : A → M B) w a w' :
  m w = (Ok a, w') → (m ≫= f) w = f a w'.
Proof. intros Hm. unfold mbind, M_bind. by rewrite Hm. Qed.

Lemma bind_Raise {A B} (m : M A) (f : A → M B) w e w' :
  m w = (Raise e, w') → (m ≫= f) w = (Raise e, w').
Proof. intros Hm. unfold mbind, M_bind. by rewrite Hm. Qed.

Lemma bind_OutOfFuel {A B} (m : M A) (f : A → M B) w w' :
  m w = (OutOfFuel, w') → (m ≫= f) w = (OutOfFuel, w').
Proof. intros Hm. unfold mbind, M_bind. by rewrite Hm. Qed.

(** The append loop of [check_ciphers] collects the tags in order. *)
Lemma collect_tags (acc : list string) (xml_list : list Element) :
  foldl (λ acc item, acc ++ [tag item]) acc xml_list = acc ++ (tag <$> xml_list).
Proof.
  revert acc. induction xml_list as [|item xml_list IH]; intros acc; simpl.
  - by rewrite app_nil_r.
  - rewrite IH. by rewrite <- app_assoc.
Qed.

Lemma check_ciphers_run dev fw service w :
  check_ciphers dev fw service w =
    let w' := log (EvGet fw (base_xpath service))
                (snd (print (NL +:+ "Checking " +:+ service +:+ " ciphers..." +:+ NL) w)) in
    match xapi_get dev (history w) fw (base_xpath service) with
    | inl e => (Raise e, w')
    | inr results => (Ok (configured_ciphers service results), w')
    end.
Proof.
  unfold check_ciphers, configured_ciphers, mbind, M_bind, external, print; simpl.
  destruct (xapi_get _ _ _ _); [done|].
  by rewrite collect_tags.
Qed.

Lemma subset_list_to_set (D C : list string) :
  (list_to_set D : gset string) ⊆ list_to_set C ↔ D ⊆ C.
Proof.
  split.
  - intros H c Hc. apply (elem_of_list_to_set (C:=gset string)).
    apply H. by apply elem_of_list_to_set.
  - intros H c Hc. apply elem_of_list_to_set. apply H.
    by apply (elem_of_list_to_set (C:=gset string)).
Qed.

Lemma compare_ciphers_run D service C results_list w :
  compare_ciphers D service C results_list w =
    let status := if bool_decide (D ⊆ C) then "ciphers_set" else "ciphers_not_set" in
    (Ok (results_list, status),
     {| history := history w;
        stdout := stdout w ++ ["Comparing " +:+ service +:+ " ciphers..." +:+ NL;
                               (if bool_decide (D ⊆ C) then "Ciphers match!"
                                else "Ciphers need to be set...") +:+ NL];
        heap := alter (λ xs, xs ++ [status]) results_list (heap w) |}).
Proof.
  unfold compare_ciphers, mbind, M_bind, print, list_append, mret, M_ret; simpl.
  rewrite (bool_decide_ext _ _ (subset_list_to_set D C)).
  destruct (bool_decide (D ⊆ C)); simpl; by rewrite <- app_assoc.
Qed.

(** ** The comparator *)

(** C1. For every desired list D and configured list C, [compare_ciphers]
    returns the status ['ciphers_set'] exactly when every element of D is
    an element of C, and ['ciphers_not_set'] exactly when that fails; it
    makes no call on the device. *)
Theorem compare_ciphers_subset (D : list string) (service : string)
    (C : list string) (results_list : loc) (w : World) :
  ∃ status w',
    compare_ciphers D service C results_list w = (Ok (results_list, status), w') ∧
    history w' = history w ∧
    (status = "ciphers_set" ↔ D ⊆ C) ∧
    (status = "ciphers_not_set" ↔ ¬ D ⊆ C).
Proof.
  rewrite compare_ciphers_run. eexists _, _. split; [reflexivity|].
  split; [done|]. simpl.
  case_bool_decide; split; split; (done || by intros).
Qed.

Example compare_ciphers_satisfied :
  (compare_ciphers ["a"; "b"] "mgmt" ["a"; "b"; "c"] 0 init_world).1
  = Ok (0, "ciphers_set").
Proof. vm_compute. reflexivity. Qed.

Example compare_ciphers_needed :
  (compare_ciphers ["a"; "b"] "mgmt" ["a"] 0 init_world).1
  = Ok (0, "ciphers_not_set").
Proof. vm_compute. reflexivity. Qed.

(** ** The auditor *)

(** A response that lists the same cipher twice is read as it is. *)
Lemma check_ciphers_keeps_duplicates :
  ∃ l, (check_ciphers
          (reading_device (get_response "mgmt" ["aes128-cbc"; "aes128-cbc"]))
          0 "mgmt" init_world).1 = Ok l
       ∧ ¬ NoDup l.
Proof.
  exists ["aes128-cbc"; "aes128-cbc"]. split; [reflexivity|].
  intros H. apply NoDup_cons in H as [H _]. apply H. left.
Qed.

(** C6. When the response holds one [result] node with one node of the
    service under it, and the entries under that node have pairwise
    distinct tags, [check_ciphers] returns those tags, in document order
    and without duplicates. *)
Theorem check_ciphers_distinct (dev : Device) (fw : Firewall) (service : string)
    (w : World) (results res node : Element) :
  xapi_get dev (history w) fw (base_xpath service) = inr results →
  filter (λ c, tag c = "result") (children results) = [res] →
  filter (λ c, tag c = service) (children res) = [node] →
  NoDup (tag <$> children node) →
  ∃ l, (check_ciphers dev fw service w).1 = Ok l
       ∧ l = tag <$> children node ∧ NoDup l.
Proof.
  intros Hget Hres Hnode Hnd. rewrite check_ciphers_run. simpl. rewrite Hget.
  eexists. split; [reflexivity|].
  assert (configured_ciphers service results = tag <$> children node) as ->; [|done].
  unfold configured_ciphers, findall. simpl.
  rewrite !app_nil_r, Hres. simpl. rewrite !app_nil_r, Hnode. simpl.
  by rewrite app_nil_r.
Qed.

Lemma check_ciphers_distinct_witness :
  ∃ l, (check_ciphers (reading_device (get_response "ha" ["aes128-cbc"; "aes256-ctr"]))
          0 "ha" init_world).1 = Ok l
       ∧ l = ["aes128-cbc"; "aes256-ctr"] ∧ NoDup l.
Proof.
  refine (check_ciphers_distinct
            (reading_device (get_response "ha" ["aes128-cbc"; "aes256-ctr"]))
            0 "ha" init_world
            (get_response "ha" ["aes128-cbc"; "aes256-ctr"])
            (Elem "result" [] None [Elem "ha" [] None (leaf <$> ["aes128-cbc"; "aes256-ctr"])])
            (Elem "ha" [] None (leaf <$> ["aes128-cbc"; "aes256-ctr"])) _ _ _ _).
  - reflexivity.
  - reflexivity.
  - reflexivity.
  - simpl. apply NoDup_cons. split.
    + intros H. apply list_elem_of_singleton in H. discriminate.
    + apply NoDup_singleton.
Defined.

(** A response without the expected nodes is read as an empty list. *)
Lemma check_ciphers_malformed_returns :
  (check_ciphers (reading_device (Elem "response" [("status", "success")] None [leaf "unexpected"]))
     0 "mgmt" init_world).1 = Ok [].
Proof. reflexivity. Qed.

(** C7. When the configuration read raises, [check_ciphers] raises the
    same exception, for any service. For the services of [main], ['mgmt']
    and ['ha'], when the read returns a structure in which no node of the
    service is found under a [result] node, [check_ciphers] returns the
    empty list as a normal result. *)
Theorem check_ciphers_failure_modes (dev : Device) (fw : Firewall)
    (service : string) (w : World) :
  (∀ e, xapi_get dev (history w) fw (base_xpath service) = inl e →
        (check_ciphers dev fw service w).1 = Raise e) ∧
  (∀ results,
        service ∈ service_list →
        xapi_get dev (history w) fw (base_xpath service) = inr results →
        findall [Self; Child "result"; Child service] results = [] →
        (check_ciphers dev fw service w).1 = Ok []).
Proof.
  split.
  - intros e He. rewrite check_ciphers_run. simpl. by rewrite He.
  - intros results _ Hget Hnone. rewrite check_ciphers_run. simpl. rewrite Hget.
    unfold configured_ciphers.
    change (findall [Self; Child "result"; Child service; Star] results)
      with (select Star (findall [Self; Child "result"; Child service] results)).
    by rewrite Hnone.
Qed.

Lemma check_ciphers_failure_modes_witness :
  (check_ciphers unreadable_device 0 "mgmt" init_world).1
    = Raise (LibraryError "pandevice.errors.PanDeviceXapiError")
  ∧ (check_ciphers (reading_device (leaf "response")) 0 "mgmt" init_world).1 = Ok [].
Proof.
  split.
  - apply (proj1 (check_ciphers_failure_modes unreadable_device 0 "mgmt" init_world)).
    reflexivity.
  - apply (proj2 (check_ciphers_failure_modes (reading_device (leaf "response"))
                    0 "mgmt" init_world) (leaf "response")).
    + left.
    + reflexivity.
    + reflexivity.
Defined.

(** ** What a computation may do to the world *)

#[global] Instance same_heap_preorder : PreOrder same_heap.
Proof.
  split.
  - by intros w.
  - intros w1 w2 w3 H12 H23. unfold same_heap in *. congruence.
Qed.

#[global] Instance extends_preorder P : PreOrder (extends P).
Proof.
  split.
  - intros w. exists []. by rewrite app_nil_r.
  - intros w1 w2 w3 (evs1 & H1 & HP1) (evs2 & H2 & HP2).
    exists (evs1 ++ evs2). split.
    + by rewrite H2, H1, app_assoc.
    + by apply Forall_app.
Qed.

Section steps.
Context (R : relation World) `{!PreOrder R}.

Lemma steps_ret {A} (a : A) : steps R (mret a).
Proof. intros w. simpl. reflexivity. Qed.

Lemma steps_raise {A} (e : exn) : steps R (@raise A e).
Proof. intros w. simpl. reflexivity. Qed.

Lemma steps_out_of_fuel {A} : steps R (@out_of_fuel A).
Proof. intros w. simpl. reflexivity. Qed.

Lemma steps_bind {A B} (m : M A) (f : A → M B) :
  steps R m → (∀ a, steps R (f a)) → steps R (m ≫= f).
Proof.
  intros Hm Hf w. specialize (Hm w). unfold mbind, M_bind.
  destruct (m w) as [[a| |] w']; simpl in *; [|done..].
  etrans; [exact Hm|]. apply Hf.
Qed.

Lemma steps_for_each {A} (l : list A) (body : A → M unit) :
  (∀ x, steps R (body x)) → steps R (for_each l body).
Proof.
  intros Hbody. induction l as [|x l IH]; simpl.
  - apply steps_ret.
  - apply steps_bind; [apply Hbody|]. intros _. apply IH.
Qed.

Lemma steps_try_except_all {A} (body handler : M A) :
  steps R body → steps R handler → steps R (try_except_all body handler).
Proof.
  intros Hb Hh w. specialize (Hb w). unfold try_except_all.
  destruct (body w) as [[a| |] w']; simpl in *; [done| |done].
  etrans; [exact Hb|]. apply Hh.
Qed.

Lemma steps_try_except_else {A B} (body : M A) (cls : M pyval)
    (handler : M B) (orelse : A → M B) :
  steps R body → steps R cls → steps R handler → (∀ a, steps R (orelse a)) →
  steps R (try_except_else body cls handler orelse).
Proof.
  intros Hb Hc Hh Ho w. specialize (Hb w). unfold try_except_else.
  destruct (body w) as [[a| |] w']; simpl in *; [| |done].
  - etrans; [exact Hb|]. apply Ho.
  - etrans; [exact Hb|]. apply steps_bind; [done|].
    intros c. destruct (isinstance e c); [done|apply steps_raise].
Qed.

Lemma steps_load_global name : steps R (load_global name).
Proof.
  unfold load_global. destruct (lookup_name _ _); [apply steps_ret|apply steps_raise].
Qed.

Lemma steps_getattr v attr : steps R (getattr v attr).
Proof. destruct v; simpl; (apply steps_ret || apply steps_raise). Qed.

Lemma steps_config_paloalto paloalto k : steps R (config_paloalto paloalto k).
Proof.
  unfold config_paloalto. apply steps_bind; [apply steps_load_global|].
  intros _. destruct (paloalto !! k); [apply steps_ret|apply steps_raise].
Qed.

End steps.

Lemma same_heap_print s : steps same_heap (print s).
Proof. by intros w. Qed.

Lemma same_heap_external {A} ev (answer : list Event → exn + A) :
  steps same_heap (external ev answer).
Proof. intros w. unfold external. by destruct (answer _). Qed.

Lemma same_heap_sleep n : steps same_heap (sleep n).
Proof. by intros w. Qed.

Lemma extends_print P s : steps (extends P) (print s).
Proof. intros w. exists []. by rewrite app_nil_r. Qed.

Lemma extends_list_new P init : steps (extends P) (list_new init).
Proof. intros w. exists []. by rewrite app_nil_r. Qed.

Lemma extends_list_append P l x : steps (extends P) (list_append l x).
Proof. intros w. exists []. by rewrite app_nil_r. Qed.

Lemma extends_list_read P l : steps (extends P) (list_read l).
Proof. intros w. exists []. by rewrite app_nil_r. Qed.

Lemma extends_external {A} (P : Event → Prop) ev (answer : list Event → exn + A) :
  P ev → steps (extends P) (external ev answer).
Proof.
  intros HP w. exists [ev]. unfold external.
  destruct (answer _); simpl; (split; [done|by apply Forall_singleton]).
Qed.

Lemma extends_sleep (P : Event → Prop) n :
  P (EvSleep n) → steps (extends P) (sleep n).
Proof. intros HP w. exists [EvSleep n]. split; [done|by apply Forall_singleton]. Qed.

Create HintDb steps.
#[global] Hint Resolve same_heap_print same_heap_external same_heap_sleep
  extends_print extends_list_new extends_list_append extends_list_read : steps.

Ltac steps_step :=
  match goal with
  | |- steps _ (mret _) => apply steps_ret; tc_solve
  | |- steps _ (raise _) => apply steps_raise; tc_solve
  | |- steps _ out_of_fuel => apply steps_out_of_fuel; tc_solve
  | |- steps _ (_ ≫= _) => apply steps_bind; [tc_solve| |intros ?]
  | |- steps _ (for_each _ _) => apply steps_for_each; [tc_solve|intros ?]
  | |- steps _ (try_except_all _ _) => apply steps_try_except_all; [tc_solve|..]
  | |- steps _ (try_except_else _ _ _ _) =>
      apply steps_try_except_else; [tc_solve| | | |intros ?]
  | |- steps _ (load_global _) => apply steps_load_global; tc_solve
  | |- steps _ (getattr _ _) => apply steps_getattr; tc_solve
  | |- steps _ (config_paloalto _ _) => apply steps_config_paloalto; tc_solve
  | |- steps (extends _) (external _ _) => apply extends_external
  | |- steps (extends _) (sleep _) => apply extends_sleep
  | |- steps _ (match ?x with _ => _ end) => destruct x
  | |- steps _ _ => solve [eauto with steps]
  end.

Ltac steps_auto := repeat steps_step.

(** *** The functions of the script leave the list objects alone ... *)

Lemma same_heap_time_sleep n : steps same_heap (time_sleep n).
Proof. unfold time_sleep. steps_auto. Qed.

Lemma same_heap_get_fw_connection dev paloalto :
  steps same_heap (get_fw_connection dev paloalto).
Proof. unfold get_fw_connection. steps_auto. Qed.

Lemma same_heap_check_ciphers dev fw service :
  steps same_heap (check_ciphers dev fw service).
Proof. unfold check_ciphers. steps_auto. Qed.

Lemma same_heap_set_ciphers dev fw service ciphers :
  steps same_heap (set_ciphers dev fw service ciphers).
Proof. unfold set_ciphers. steps_auto. Qed.

Lemma same_heap_commit_config dev fw : steps same_heap (commit_config dev fw).
Proof. unfold commit_config. steps_auto. Qed.

Lemma same_heap_restart_service dev fw service :
  steps same_heap (restart_service dev fw service).
Proof. unfold restart_service. steps_auto. Qed.

Lemma same_heap_restart_system dev fw : steps same_heap (restart_system dev fw).
Proof. unfold restart_system. steps_auto. Qed.

#[global] Hint Resolve same_heap_time_sleep same_heap_get_fw_connection : steps.

Lemma same_heap_while_down dev paloalto fuel status fw :
  steps same_heap (while_down dev paloalto fuel status fw).
Proof.
  revert status fw. induction fuel as [|fuel IH]; intros status fw; simpl.
  - steps_auto.
  - steps_auto.
Qed.

Lemma same_heap_check_device_up dev paloalto fuel :
  steps same_heap (check_device_up dev paloalto fuel).
Proof.
  unfold check_device_up. steps_auto. apply same_heap_while_down.
Qed.

Lemma steps_run (R : relation World) {A} (m : M A) w r w' :
  steps R m → m w = (r, w') → R w w'.
Proof. intros Hm Hrun. specialize (Hm w). by rewrite Hrun in Hm. Qed.

Lemma bind_inv_Ok {A B} (m : M A) (f : A → M B) w b w' :
  (m ≫= f) w = (Ok b, w') →
  ∃ a w1, m w = (Ok a, w1) ∧ f a w1 = (Ok b, w').
Proof.
  unfold mbind, M_bind. destruct (m w) as [[a| |] w1]; [|done..].
  intros Hf. by exists a, w1.
Qed.

#[global] Hint Resolve same_heap_check_ciphers same_heap_set_ciphers
  same_heap_commit_config same_heap_restart_service same_heap_restart_system
  same_heap_check_device_up : steps.

(** ** The phases of [main] *)

Lemma main_phases dev paloalto fuel w :
  main dev paloalto fuel w =
    (services_phase dev paloalto fuel ≫=
       λ '(fw, results_list, _, _), escalator dev fw results_list) w.
Proof.
  unfold main, services_phase, main_prelude, escalator, service_list, main_loop.
  unfold mbind, M_bind, mret, M_ret.
  destruct (get_fw_connection dev paloalto w) as [[fw| |] w0]; simpl; [|done..].
  destruct (main_loop_body _ _ _ _ _ _ _) as [[[[fw1 rl1] s1]| |] w1]; simpl; [|done..].
  destruct (main_loop_body _ _ _ _ _ _ _) as [[[[fw2 rl2] s2]| |] w2]; simpl; done.
Qed.

(** One round appends its status to the accumulator, and nothing else
    happens to the list objects. *)
Lemma main_loop_body_heap dev paloalto fuel service fw rl w fw' rl' status w' :
  main_loop_body dev paloalto fuel service fw rl w = (Ok (fw', rl', status), w') →
  rl' = rl ∧ heap w' = alter (λ xs, xs ++ [status]) rl (heap w).
Proof.
  unfold main_loop_body. intros Hrun.
  apply bind_inv_Ok in Hrun as (C & w1 & Hcheck & Hrun).
  apply (steps_run same_heap) in Hcheck; [|eauto with steps].
  apply bind_inv_Ok in Hrun as ([rl1 s1] & w2 & Hcmp & Hrun).
  rewrite compare_ciphers_run in Hcmp. simpl in Hcmp.
  injection Hcmp as <- <- <-.
  apply bind_inv_Ok in Hrun as (fw1 & w3 & Hrem & Hrun).
  injection Hrun as <- <- <- <-.
  split; [done|].
  assert (same_heap
            {| history := history w1;
               stdout := stdout w1 ++
                 ["Comparing " +:+ service +:+ " ciphers..." +:+ NL;
                  (if bool_decide (cipher_list ⊆ C) then "Ciphers match!"
                   else "Ciphers need to be set...") +:+ NL];
               heap := alter
                 (λ xs, xs ++ [if bool_decide (cipher_list ⊆ C)
                               then "ciphers_set" else "ciphers_not_set"])
                 rl (heap w1) |} w3) as Hsame.
  { eapply steps_run; [|exact Hrem]. steps_auto. }
  unfold same_heap in *. simpl in Hsame. by rewrite Hsame, Hcheck.
Qed.

Lemma main_prelude_run dev paloalto w fw rl w' :
  main_prelude dev paloalto w = (Ok (fw, rl), w') →
  heap w' !! rl = Some [].
Proof.
  unfold main_prelude. intros Hrun.
  apply bind_inv_Ok in Hrun as (fw0 & w1 & Hconn & Hrun).
  injection Hrun as <- <- <-. simpl.
  by apply list_lookup_middle.
Qed.

(** After the two rounds the accumulator holds the two statuses. *)
Lemma services_phase_statuses dev paloalto fuel w fw rl s1 s2 w' :
  services_phase dev paloalto fuel w = (Ok (fw, rl, s1, s2), w') →
  heap w' !! rl = Some [s1; s2].
Proof.
  unfold services_phase. intros Hrun.
  apply bind_inv_Ok in Hrun as ([fw0 rl0] & w0 & Hpre & Hrun).
  apply bind_inv_Ok in Hrun as ([[fw1 rl1] t1] & w1 & Hmgmt & Hrun).
  apply bind_inv_Ok in Hrun as ([[fw2 rl2] t2] & w2 & Hha & Hrun).
  injection Hrun as <- <- <- <- <-.
  apply main_prelude_run in Hpre.
  apply main_loop_body_heap in Hmgmt as [? Hheap1].
  apply main_loop_body_heap in Hha as [? Hheap2]. subst.
  rewrite Hheap2, Hheap1, !list_lookup_alter_eq, Hpre. done.
Qed.

Lemma restart_system_run dev fw w :
  restart_system dev fw w =
    (match fw_op dev (history w) fw restart_system_command false with
     | inl _ => Raise SystemExit
     | inr _ => Ok tt
     end,
     log (EvOp fw restart_system_command false)
         (print ("Restarting system..." +:+ NL) w).2).
Proof.
  unfold restart_system, try_except_all, external, mbind, M_bind; simpl.
  by destruct (fw_op _ _ _ _ _).
Qed.

Lemma not_set_in_statuses (s1 s2 : string) :
  "ciphers_not_set" ∈ elements (list_to_set [s1; s2] : gset string)
  ↔ s1 = "ciphers_not_set" ∨ s2 = "ciphers_not_set".
Proof.
  rewrite elem_of_elements, elem_of_list_to_set, !elem_of_cons, elem_of_nil.
  split.
  - intros [H|[H|[]]]; auto.
  - intros [H|H]; auto.
Qed.

Lemma escalator_run dev fw rl w s1 s2 :
  heap w !! rl = Some [s1; s2] →
  history (escalator dev fw rl w).2 =
    history w ++
      (if bool_decide (s1 = "ciphers_not_set" ∨ s2 = "ciphers_not_set")
       then [EvOp fw restart_system_command false] else []).
Proof.
  intros Hrl. unfold escalator, list_of_set, list_read, list_new, mbind, M_bind.
  simpl. rewrite Hrl. simpl.
  rewrite (list_lookup_middle (heap w) []); [|done]. simpl.
  rewrite (bool_decide_ext _ _ (not_set_in_statuses s1 s2)).
  case_bool_decide.
  - by rewrite restart_system_run.
  - simpl. by rewrite app_nil_r.
Qed.

(** ** The accumulator *)


(** ** The escalator *)

(** C3. Once both services have been processed, with statuses
    [status_mgmt] and [status_ha], the rest of [main] issues the system
    restart when one of the two statuses is ['ciphers_not_set'], and
    issues nothing when both are not. *)
Theorem escalator_restart_iff (dev : Device) (paloalto : gmap string string)
    (fuel : nat) (w : World) (fw : Firewall) (results_list : loc)
    (status_mgmt status_ha : string) (w' : World) :
  services_phase dev paloalto fuel w
    = (Ok (fw, results_list, status_mgmt, status_ha), w') →
  history (main dev paloalto fuel w).2 =
    history w' ++
      (if bool_decide (status_mgmt = "ciphers_not_set" ∨ status_ha = "ciphers_not_set")
       then [EvOp fw restart_system_command false] else []).
Proof.
  intros Hrun. rewrite main_phases. erewrite bind_Ok; [|exact Hrun].
  apply escalator_run. by eapply services_phase_statuses.
Qed.


Lemma escalator_restart_iff_witness :
  history (main (configured_device cipher_list []) sample_config 1 init_world).2 =
    history (services_phase (configured_device cipher_list []) sample_config 1
               init_world).2
    ++ [EvOp 0 restart_system_command false].
Proof.
  refine (escalator_restart_iff (configured_device cipher_list []) sample_config 1
            init_world 0 0 "ciphers_set" "ciphers_not_set" _ _).
  vm_compute. reflexivity.
Defined.

(** ** A run that finds both services in order *)

Lemma get_fw_connection_run dev (paloalto : gmap string string) key fw_ip w :
  paloalto !! "key" = Some key →
  paloalto !! "firewall_ip" = Some fw_ip →
  get_fw_connection dev paloalto w =
    (match firewall_Firewall dev (history w) fw_ip key with
     | inl e => Raise e
     | inr fw => Ok fw
     end, log (EvConnect fw_ip key) w).
Proof.
  intros Hkey Hip.
  unfold get_fw_connection, config_paloalto, external, mbind, M_bind; simpl.
  rewrite Hkey, Hip; simpl.
  by destruct (firewall_Firewall _ _ _ _).
Qed.

(** A round on a service that has every wanted cipher only reads. *)
Lemma main_loop_body_satisfied dev paloalto fuel service fw rl w results :
  xapi_get dev (history w) fw (base_xpath service) = inr results →
  cipher_list ⊆ configured_ciphers service results →
  ∃ w', main_loop_body dev paloalto fuel service fw rl w
          = (Ok (fw, rl, "ciphers_set"), w')
        ∧ history w' = history w ++ [EvGet fw (base_xpath service)]
        ∧ heap w' = alter (λ xs, xs ++ ["ciphers_set"]) rl (heap w).
Proof.
  intros Hget Hsub. unfold main_loop_body.
  erewrite bind_Ok; [|rewrite check_ciphers_run; simpl; rewrite Hget; reflexivity].
  erewrite bind_Ok; [|apply compare_ciphers_run].
  simpl. rewrite (bool_decide_eq_true_2 _ Hsub). simpl.
  eexists. split; [reflexivity|]. done.
Qed.

(** C4. When the connection is made and both reads show every cipher of
    the wanted list, the run makes the connection and the two reads and no
    other call on the device (no write, no commit, no restart of a service
    or of the system), and returns normally. *)
Theorem satisfied_run_only_reads (dev : Device) (paloalto : gmap string string)
    (fuel : nat) (w : World) (key fw_ip : string) (fw : Firewall)
    (results_mgmt results_ha : Element) :
  paloalto !! "key" = Some key →
  paloalto !! "firewall_ip" = Some fw_ip →
  firewall_Firewall dev (history w) fw_ip key = inr fw →
  xapi_get dev (history w ++ [EvConnect fw_ip key]) fw (base_xpath "mgmt")
    = inr results_mgmt →
  cipher_list ⊆ configured_ciphers "mgmt" results_mgmt →
  xapi_get dev (history w ++ [EvConnect fw_ip key; EvGet fw (base_xpath "mgmt")])
    fw (base_xpath "ha") = inr results_ha →
  cipher_list ⊆ configured_ciphers "ha" results_ha →
  (main dev paloalto fuel w).1 = Ok tt ∧
  history (main dev paloalto fuel w).2 =
    history w ++ [EvConnect fw_ip key; EvGet fw (base_xpath "mgmt");
                  EvGet fw (base_xpath "ha")].
Proof.
  intros Hkey Hip Hconn Hmgmt Hsub_mgmt Hha Hsub_ha.
  pose (w0 := {| history := history w ++ [EvConnect fw_ip key];
                 stdout := stdout w; heap := heap w ++ [[]] |}).
  destruct (main_loop_body_satisfied dev paloalto fuel "mgmt" fw
              (length (heap w)) w0 results_mgmt Hmgmt Hsub_mgmt)
    as (w1 & Hrun1 & Hhist1 & Hheap1).
  assert (xapi_get dev (history w1) fw (base_xpath "ha") = inr results_ha) as Hha'.
  { rewrite Hhist1. simpl. by rewrite <- app_assoc. }
  destruct (main_loop_body_satisfied dev paloalto fuel "ha" fw
              (length (heap w)) w1 results_ha Hha' Hsub_ha)
    as (w2 & Hrun2 & Hhist2 & Hheap2).
  assert (services_phase dev paloalto fuel w
          = (Ok (fw, length (heap w), "ciphers_set", "ciphers_set"), w2)) as Hphase.
  { assert (main_prelude dev paloalto w = (Ok (fw, length (heap w)), w0)) as Hpre.
    { unfold main_prelude, mbind, M_bind.
      by rewrite (get_fw_connection_run _ _ key fw_ip), Hconn. }
    unfold services_phase.
    erewrite bind_Ok; [|exact Hpre]. cbv beta iota.
    erewrite bind_Ok; [|exact Hrun1]. cbv beta iota.
    erewrite bind_Ok; [|exact Hrun2]. done. }
  rewrite main_phases. erewrite bind_Ok; [|exact Hphase]. cbv beta iota.
  pose proof (services_phase_statuses _ _ _ _ _ _ _ _ _ Hphase) as Hst.
  unfold escalator, list_of_set, list_read, list_new, mbind, M_bind. simpl.
  rewrite Hst. simpl.
  rewrite (list_lookup_middle (heap w2) []); [|done]. simpl.
  rewrite Hhist2, Hhist1. simpl.
  split; [done|]. by rewrite <- !app_assoc.
Qed.

Lemma satisfied_run_only_reads_witness :
  (main (configured_device cipher_list cipher_list) sample_config 1 init_world).1
    = Ok tt ∧
  history (main (configured_device cipher_list cipher_list) sample_config 1
             init_world).2 =
    [] ++ [EvConnect "192.0.2.1" "secret"; EvGet 0 (base_xpath "mgmt");
           EvGet 0 (base_xpath "ha")].
Proof.
  refine (satisfied_run_only_reads (configured_device cipher_list cipher_list)
            sample_config 1 init_world "secret" "192.0.2.1" 0
            (get_response "mgmt" cipher_list) (get_response "ha" cipher_list)
            _ _ _ _ _ _ _).
  - reflexivity.
  - reflexivity.
  - reflexivity.
  - reflexivity.
  - apply (bool_decide_unpack _). vm_compute. exact I.
  - reflexivity.
  - apply (bool_decide_unpack _). vm_compute. exact I.
Defined.

(** ** The wait for the device *)

Lemma while_down_up dev paloalto fuel fw w :
  while_down dev paloalto fuel "up" fw w = (Ok fw, w).
Proof. by destruct fuel. Qed.

(** The name [pandevice] is not bound in the module: the clause
    [except pandevice.errors.PanURLError] cannot be evaluated. *)
Lemma pandevice_unbound : lookup_name module_globals "pandevice" = None.
Proof. reflexivity. Qed.

(** One round of the loop: one connection attempt. When it succeeds the
    loop ends with the handle; when it raises, the evaluation of the
    [except] clause raises [NameError] and the loop is left. *)
Lemma while_down_round dev (paloalto : gmap string string) fuel fw0 w key fw_ip :
  paloalto !! "key" = Some key →
  paloalto !! "firewall_ip" = Some fw_ip →
  while_down dev paloalto (S fuel) "down" fw0 w =
    let w1 := log (EvConnect fw_ip key) (print "Connecting to the device..." w).2 in
    match firewall_Firewall dev (history w) fw_ip key with
    | inl e => (Raise (NameError "pandevice"), w1)
    | inr fw =>
        (Ok (Some fw),
         (print ("The device is back up.  Continuing to next step..." +:+ NL) w1).2)
    end.
Proof.
  intros Hkey Hip. cbn [while_down].
  rewrite (bool_decide_eq_true_2 _ (eq_refl "down")).
  unfold mbind at 1, M_bind at 1, try_except_else.
  rewrite (bind_Ok _ _ w tt (print "Connecting to the device..." w).2); [|done].
  rewrite (get_fw_connection_run _ _ key fw_ip); [|done..].
  simpl. destruct (firewall_Firewall dev (history w) fw_ip key) as [e|fw]; simpl.
  - done.
  - by rewrite while_down_up.
Qed.

Lemma check_device_up_run dev (paloalto : gmap string string) fuel w key fw_ip :
  paloalto !! "key" = Some key →
  paloalto !! "firewall_ip" = Some fw_ip →
  check_device_up dev paloalto (S fuel) w =
    let w0 := log (EvSleep 60) (print ("Checking if device is up..." +:+ NL) w).2 in
    let w1 := log (EvConnect fw_ip key) (print "Connecting to the device..." w0).2 in
    match firewall_Firewall dev (history w0) fw_ip key with
    | inl e => (Raise (NameError "pandevice"), w1)
    | inr fw =>
        (Ok fw,
         (print ("The device is back up.  Continuing to next step..." +:+ NL) w1).2)
    end.
Proof.
  intros Hkey Hip. unfold check_device_up.
  rewrite (bind_Ok _ _ w tt (print ("Checking if device is up..." +:+ NL) w).2); [|done].
  rewrite (bind_Ok _ _ _ tt
             (log (EvSleep 60) (print ("Checking if device is up..." +:+ NL) w).2)); [|done].
  unfold mbind, M_bind.
  rewrite (while_down_round _ _ _ _ _ key fw_ip); [|done..]. cbv zeta.
  by destruct (firewall_Firewall dev _ fw_ip key) as [e|fw].
Qed.

(** With no failure the wait makes one attempt and returns the handle. *)
Lemma check_device_up_first_success dev (paloalto : gmap string string) fuel w
    key fw_ip fw :
  paloalto !! "key" = Some key →
  paloalto !! "firewall_ip" = Some fw_ip →
  firewall_Firewall dev (history w ++ [EvSleep 60]) fw_ip key = inr fw →
  (check_device_up dev paloalto (S fuel) w).1 = Ok fw ∧
  history (check_device_up dev paloalto (S fuel) w).2 =
    history w ++ [EvSleep 60; EvConnect fw_ip key].
Proof.
  intros Hkey Hip Hconn. rewrite (check_device_up_run _ _ _ _ key fw_ip); [|done..].
  simpl. rewrite Hconn. simpl. by rewrite <- app_assoc.
Qed.

(** C5. The code departs from the claim: when the first connection
    attempt of [check_device_up] raises, whatever the exception, the wait
    ends at once with [NameError] for the name [pandevice]; it has made one
    connection attempt, and neither waits nor tries again. *)
Theorem check_device_up_failure_aborts (dev : Device)
    (paloalto : gmap string string) (fuel : nat) (w : World)
    (key fw_ip : string) (e : exn) :
  paloalto !! "key" = Some key →
  paloalto !! "firewall_ip" = Some fw_ip →
  firewall_Firewall dev (history w ++ [EvSleep 60]) fw_ip key = inl e →
  (check_device_up dev paloalto (S fuel) w).1 = Raise (NameError "pandevice") ∧
  history (check_device_up dev paloalto (S fuel) w).2 =
    history w ++ [EvSleep 60; EvConnect fw_ip key].
Proof.
  intros Hkey Hip Hconn. rewrite (check_device_up_run _ _ _ _ key fw_ip); [|done..].
  simpl. rewrite Hconn. simpl. by rewrite <- app_assoc.
Qed.

Lemma check_device_up_failure_aborts_witness :
  (check_device_up (recovering_device 1) sample_config 3 init_world).1
    = Raise (NameError "pandevice") ∧
  history (check_device_up (recovering_device 1) sample_config 3 init_world).2
    = [] ++ [EvSleep 60; EvConnect "192.0.2.1" "secret"].
Proof.
  refine (check_device_up_failure_aborts (recovering_device 1) sample_config 2
            init_world "secret" "192.0.2.1"
            (LibraryError "pandevice.errors.PanURLError") _ _ _);
    reflexivity.
Defined.

Example check_device_up_attempts :
  count_events is_connect
    (history (check_device_up (recovering_device 0) sample_config 3 init_world).2) = 1
  ∧ (check_device_up (recovering_device 0) sample_config 3 init_world).1 = Ok 0
  ∧ count_events is_connect
      (history (check_device_up (recovering_device 1) sample_config 3 init_world).2) = 1
  ∧ count_events is_connect
      (history (check_device_up (recovering_device 2) sample_config 3 init_world).2) = 1.
Proof. vm_compute. repeat split. Qed.

(** ** The remediator *)

Lemma set_ciphers_unfold dev fw service ciphers w :
  set_ciphers dev fw service ciphers w =
    for_each ciphers (set_cipher dev fw service)
      (print ("Setting " +:+ service +:+ " ciphers..." +:+ NL) w).2.
Proof. reflexivity. Qed.

Lemma set_cipher_run dev fw service cipher w :
  history (set_cipher dev fw service cipher w).2
    = history w ++ [add_cipher fw service cipher] ∧
  (set_cipher dev fw service cipher w).1 =
    match xapi_set dev (history w) fw (base_xpath service) ("<" +:+ cipher +:+ "/>") with
    | inl e => Raise e
    | inr _ => Ok tt
    end.
Proof.
  unfold set_cipher, external, mbind, M_bind.
  by destruct (xapi_set _ _ _ _ _).
Qed.

(** The writes of the loop: those of a prefix of the list, in order. The
    prefix is the whole list when the loop returns; when it raises, the
    last write of the prefix is the one that raised. *)
Lemma set_cipher_loop dev fw service ciphers w :
  ∃ k,
    history (for_each ciphers (set_cipher dev fw service) w).2
      = history w ++ (add_cipher fw service <$> take k ciphers) ∧
    match (for_each ciphers (set_cipher dev fw service) w).1 with
    | Ok _ => k = length ciphers
    | Raise e =>
        ∃ j cipher, k = S j ∧ ciphers !! j = Some cipher ∧
          xapi_set dev (history w ++ (add_cipher fw service <$> take j ciphers))
            fw (base_xpath service) ("<" +:+ cipher +:+ "/>") = inl e
    | OutOfFuel => False
    end.
Proof.
  revert w. induction ciphers as [|c ciphers IH]; intros w.
  - exists 0. simpl. by rewrite app_nil_r.
  - cbn [for_each]. unfold mbind, M_bind.
    destruct (set_cipher_run dev fw service c w) as [Hhist Hres].
    destruct (set_cipher dev fw service c w) as [r w1]. simpl in Hhist, Hres.
    destruct (xapi_set dev (history w) fw (base_xpath service) ("<" +:+ c +:+ "/>"))
      as [e|results] eqn:Hset; subst r.
    + exists 1. simpl. split; [by rewrite ?take_0|].
      exists 0, c. by rewrite ?take_0, app_nil_r.
    + destruct (IH w1) as (k & Hk & Hmatch). exists (S k). split.
      * rewrite Hk, Hhist. simpl. by rewrite <- app_assoc.
      * revert Hmatch.
        destruct (for_each ciphers (set_cipher dev fw service) w1).1 as [[]|e|];
          intros Hmatch; [simpl; by f_equal| |done].
        destruct Hmatch as (j & cipher & -> & Hj & Hraise).
        exists (S j), cipher. split; [done|]. split; [done|].
        rewrite <- Hraise, Hhist. simpl. by rewrite <- app_assoc.
Qed.



Example set_ciphers_eight_writes :
  history (set_ciphers (configured_device [] []) 0 "mgmt" cipher_list init_world).2
    = add_cipher 0 "mgmt" <$> cipher_list
  ∧ length cipher_list = 8.
Proof. split; reflexivity. Qed.

(** ** The system restart in the history of a run *)

Lemma restart_service_quiet fw service b :
  quiet (EvOp fw (restart_service_command service) b).
Proof.
  unfold quiet, is_system_restart. apply bool_decide_eq_false_2.
  unfold restart_service_command, restart_system_command. simpl. discriminate.
Qed.

Ltac quiet_auto :=
  steps_auto; try (first [reflexivity | apply restart_service_quiet]).

Lemma quiet_time_sleep n : steps (extends quiet) (time_sleep n).
Proof. unfold time_sleep. quiet_auto. Qed.

Lemma quiet_get_fw_connection dev paloalto :
  steps (extends quiet) (get_fw_connection dev paloalto).
Proof. unfold get_fw_connection. quiet_auto. Qed.

Lemma quiet_check_ciphers dev fw service :
  steps (extends quiet) (check_ciphers dev fw service).
Proof. unfold check_ciphers. quiet_auto. Qed.

Lemma quiet_compare_ciphers D service C rl :
  steps (extends quiet) (compare_ciphers D service C rl).
Proof. unfold compare_ciphers. quiet_auto. Qed.

Lemma quiet_set_ciphers dev fw service ciphers :
  steps (extends quiet) (set_ciphers dev fw service ciphers).
Proof. unfold set_ciphers. quiet_auto. Qed.

Lemma quiet_commit_config dev fw : steps (extends quiet) (commit_config dev fw).
Proof. unfold commit_config. quiet_auto. Qed.

Lemma quiet_restart_service dev fw service :
  steps (extends quiet) (restart_service dev fw service).
Proof. unfold restart_service. quiet_auto. Qed.

#[global] Hint Resolve quiet_time_sleep quiet_get_fw_connection : steps.

Lemma quiet_while_down dev paloalto fuel status fw :
  steps (extends quiet) (while_down dev paloalto fuel status fw).
Proof.
  revert status fw. induction fuel as [|fuel IH]; intros status fw; simpl; quiet_auto.
Qed.

Lemma quiet_check_device_up dev paloalto fuel :
  steps (extends quiet) (check_device_up dev paloalto fuel).
Proof. unfold check_device_up. quiet_auto. apply quiet_while_down. Qed.

#[global] Hint Resolve quiet_check_ciphers quiet_compare_ciphers quiet_set_ciphers
  quiet_commit_config quiet_restart_service quiet_check_device_up : steps.

Lemma quiet_main_loop_body dev paloalto fuel service fw rl :
  steps (extends quiet) (main_loop_body dev paloalto fuel service fw rl).
Proof. unfold main_loop_body. quiet_auto. Qed.

#[global] Hint Resolve quiet_main_loop_body : steps.

Lemma quiet_services_phase dev paloalto fuel :
  steps (extends quiet) (services_phase dev paloalto fuel).
Proof. unfold services_phase, main_prelude. quiet_auto. Qed.

Lemma count_quiet (h : list Event) :
  Forall quiet h → count_events is_system_restart h = 0.
Proof.
  unfold count_events. induction 1 as [|ev h Hev _ IH]; [done|].
  rewrite filter_cons_False; [done|]. unfold quiet in Hev.
  simpl. rewrite Hev. by intros [].
Qed.

Lemma count_events_app p (h1 h2 : list Event) :
  count_events p (h1 ++ h2) = count_events p h1 + count_events p h2.
Proof. unfold count_events. by rewrite filter_app, length_app. Qed.

(** An event that is not quiet can only be the last one of a history
    whose events are quiet up to the last. *)
Lemma loud_event_is_last (h pre post : list Event) (ev r : Event) :
  Forall quiet h → is_system_restart ev = true →
  pre ++ ev :: post = h ++ [r] →
  pre = h ∧ ev = r ∧ post = [].
Proof.
  intros Hquiet Hev Heq. destruct post as [|z post _] using rev_ind.
  - apply app_inj_tail in Heq as [-> ->]. done.
  - exfalso. rewrite app_comm_cons, app_assoc in Heq.
    apply app_inj_tail in Heq as [<- _].
    rewrite Forall_app, Forall_cons in Hquiet. destruct Hquiet as (_ & Hq & _).
    unfold quiet in Hq. congruence.
Qed.

(** C9. In the history of a run of [main] the system restart occurs at
    most once. When it occurs it is the last event, both rounds of the loop
    have returned before it (each service was found in order, or was
    remediated and the device came back), and the history before it is the
    history of those two rounds. *)
Theorem system_restart_once_after_services (dev : Device)
    (paloalto : gmap string string) (fuel : nat) :
  let h := history (main dev paloalto fuel init_world).2 in
  (count_events is_system_restart h ≤ 1)%nat ∧
  (∀ pre ev post,
     h = pre ++ ev :: post → is_system_restart ev = true →
     post = [] ∧
     ∃ fw results_list status_mgmt status_ha w',
       services_phase dev paloalto fuel init_world
         = (Ok (fw, results_list, status_mgmt, status_ha), w')
       ∧ pre = history w'
       ∧ ev = EvOp fw restart_system_command false).
Proof.
  intros h. subst h. rewrite main_phases.
  pose proof (quiet_services_phase dev paloalto fuel init_world) as (evs & Hevs & Hquiet).
  simpl in Hevs.
  destruct (services_phase dev paloalto fuel init_world)
    as [[[[[fw rl] s1] s2]| |] w'] eqn:Hphase; simpl in Hevs.
  - erewrite bind_Ok; [|exact Hphase]. cbv beta iota.
    rewrite (escalator_run dev fw rl w' s1 s2);
      [|by eapply services_phase_statuses].
    rewrite Hevs. case_bool_decide as Hneed.
    + split.
      * rewrite count_events_app, (count_quiet evs Hquiet). simpl.
        unfold count_events. simpl. lia.
      * intros pre ev post Heq Hev.
        symmetry in Heq.
        apply (loud_event_is_last evs) in Heq as (-> & -> & ->); [|done..].
        split; [done|]. by exists fw, rl, s1, s2, w'.
    + rewrite app_nil_r. split.
      * rewrite (count_quiet evs Hquiet). lia.
      * intros pre ev post Heq Hev. exfalso. rewrite Heq in Hquiet.
        rewrite Forall_app, Forall_cons in Hquiet. destruct Hquiet as (_ & Hq & _).
        unfold quiet in Hq. congruence.
  - erewrite bind_Raise; [|exact Hphase]. simpl. rewrite Hevs. split.
    + rewrite (count_quiet evs Hquiet). lia.
    + intros pre ev post Heq Hev. exfalso. rewrite Heq in Hquiet.
      rewrite Forall_app, Forall_cons in Hquiet. destruct Hquiet as (_ & Hq & _).
      unfold quiet in Hq. congruence.
  - erewrite bind_OutOfFuel; [|exact Hphase]. simpl. rewrite Hevs. split.
    + rewrite (count_quiet evs Hquiet). lia.
    + intros pre ev post Heq Hev. exfalso. rewrite Heq in Hquiet.
      rewrite Forall_app, Forall_cons in Hquiet. destruct Hquiet as (_ & Hq & _).
      unfold quiet in Hq. congruence.
Qed.

(** ** Exceptions raised by the device *)

Lemma split_event {A} (pre post l1 l2 : list A) (x : A) :
  pre ++ x :: post = l1 ++ l2 →
  (∃ post1, l1 = pre ++ x :: post1 ∧ post = post1 ++ l2) ∨
  (∃ pre2, pre = l1 ++ pre2 ∧ l2 = pre2 ++ x :: post).
Proof.
  revert pre. induction l1 as [|y l1 IH]; intros pre Heq.
  - right. by exists pre.
  - destruct pre as [|z pre]; simpl in Heq.
    + injection Heq as -> ->. left. by exists l1.
    + injection Heq as -> Heq. destruct (IH pre Heq) as [(post1 & -> & ->)|(pre2 & -> & ->)].
      * left. by exists post1.
      * right. by exists pre2.
Qed.

Section fail_stop.
Context (dev : Device) (Q : Event → exn → exn → Prop).

Lemma fail_stop_silent {A} (m : M A) :
  steps (extends (λ _, False)) m → fail_stop dev Q m.
Proof.
  intros Hm w. destruct (Hm w) as (evs & Hevs & Hnone). exists evs.
  split; [done|]. intros pre ev post e -> _.
  rewrite Forall_app, Forall_cons in Hnone. by destruct Hnone as (_ & [] & _).
Qed.

Lemma fail_stop_sleep n : fail_stop dev Q (sleep n).
Proof.
  intros w. exists [EvSleep n]. split; [done|].
  intros pre ev post e Heq Hans.
  destruct pre as [|ev' [|? ?]]; [|done..].
  injection Heq as <- <-. done.
Qed.

Lemma fail_stop_external {A} ev (f : list Event → exn + A) :
  (∀ h, answer dev h ev = match f h with inl e => Some e | inr _ => None end) →
  (∀ e, Q ev e e) →
  fail_stop dev Q (external ev f).
Proof.
  intros Hans HQ w. exists [ev]. split.
  { unfold external. by destruct (f (history w)). }
  intros pre ev' post e Heq Hraised.
  destruct pre as [|? [|? ?]]; [|done..].
  injection Heq as <- <-. split; [done|].
  rewrite app_nil_r, Hans in Hraised. unfold external.
  destruct (f (history w)) as [e0|a]; [|done].
  injection Hraised as ->. by exists e.
Qed.

Lemma fail_stop_bind {A B} (m : M A) (f : A → M B) :
  fail_stop dev Q m → (∀ a, fail_stop dev Q (f a)) → fail_stop dev Q (m ≫= f).
Proof.
  intros Hm Hf w. destruct (Hm w) as (evs1 & H1 & Hlast1).
  unfold mbind, M_bind. destruct (m w) as [[a| |] w1]; simpl in *.
  - destruct (Hf a w1) as (evs2 & H2 & Hlast2). exists (evs1 ++ evs2). split.
    { by rewrite H2, H1, app_assoc. }
    intros pre ev post e Heq Hans. symmetry in Heq.
    apply split_event in Heq as [(post1 & -> & ->)|(pre2 & -> & ->)].
    + by destruct (Hlast1 pre ev post1 e eq_refl Hans) as (_ & e' & He' & _).
    + apply (Hlast2 pre2 ev post e eq_refl). by rewrite H1, <- app_assoc.
  - exists evs1. split; [done|]. intros pre ev post e0 Heq Hans.
    destruct (Hlast1 pre ev post e0 Heq Hans) as (Hpost & e' & [= ->] & HQ).
    split; [done|]. by exists e'.
  - exists evs1. split; [done|]. intros pre ev post e0 Heq Hans.
    by destruct (Hlast1 pre ev post e0 Heq Hans) as (_ & e' & He' & _).
Qed.

Lemma fail_stop_for_each {A} (l : list A) (body : A → M unit) :
  (∀ x, fail_stop dev Q (body x)) → fail_stop dev Q (for_each l body).
Proof.
  intros Hbody. induction l as [|x l IH]; simpl.
  - apply fail_stop_silent. steps_auto.
  - apply fail_stop_bind; [apply Hbody|]. intros _. apply IH.
Qed.

End fail_stop.

Lemma fail_stop_weaken dev (Q Q' : Event → exn → exn → Prop) {A} (m : M A) :
  (∀ ev e e', Q ev e e' → Q' ev e e') → fail_stop dev Q m → fail_stop dev Q' m.
Proof.
  intros HQ Hm w. destruct (Hm w) as (evs & Hevs & Hlast). exists evs.
  split; [done|]. intros pre ev post e Heq Hans.
  destruct (Hlast pre ev post e Heq Hans) as (Hpost & e' & He' & HQe).
  split; [done|]. exists e'. auto.
Qed.

Lemma fail_stop_ext dev Q {A} (m m' : M A) :
  (∀ w, m w = m' w) → fail_stop dev Q m' → fail_stop dev Q m.
Proof. intros Heq Hm w. rewrite Heq. apply Hm. Qed.

Lemma connecting_plain ev e e' : connecting ev e e' → plain ev e e'.
Proof. intros [Hc ->]. split; [|done]. by destruct ev. Qed.

Lemma plain_outcome ev e e' : plain ev e e' → outcome_of ev e e'.
Proof.
  intros [Hq ->]. destruct ev; simpl; auto.
  unfold quiet in Hq. simpl in Hq. by rewrite Hq.
Qed.

Ltac fs_step :=
  match goal with
  | |- fail_stop _ _ (_ ≫= _) => apply fail_stop_bind; [|intros ?]
  | |- fail_stop _ _ (for_each _ _) => apply fail_stop_for_each; intros ?
  | |- fail_stop _ _ (external _ _) =>
      apply fail_stop_external; [intros ?; reflexivity|intros ?]
  | |- fail_stop _ _ (sleep _) => apply fail_stop_sleep
  | |- fail_stop _ _ (match ?x with _ => _ end) => destruct x
  | |- fail_stop _ _ _ =>
      first [ solve [eauto with fail_stop]
            | apply fail_stop_silent; solve [steps_auto] ]
  end.

Ltac fs_auto := repeat fs_step.

Create HintDb fail_stop.

Lemma fail_stop_get_fw_connection dev paloalto :
  fail_stop dev connecting (get_fw_connection dev paloalto).
Proof. unfold get_fw_connection. fs_auto. done. Qed.

Lemma fail_stop_check_ciphers dev fw service :
  fail_stop dev plain (check_ciphers dev fw service).
Proof. unfold check_ciphers. fs_auto. done. Qed.

Lemma fail_stop_compare_ciphers dev D service C rl :
  fail_stop dev plain (compare_ciphers D service C rl).
Proof. unfold compare_ciphers. fs_auto. Qed.

Lemma fail_stop_set_ciphers dev fw service ciphers :
  fail_stop dev plain (set_ciphers dev fw service ciphers).
Proof. unfold set_ciphers. fs_auto. done. Qed.

Lemma fail_stop_commit_config dev fw : fail_stop dev plain (commit_config dev fw).
Proof. unfold commit_config. fs_auto. done. Qed.

Lemma fail_stop_restart_service dev fw service :
  fail_stop dev plain (restart_service dev fw service).
Proof.
  unfold restart_service. fs_auto. split; [apply restart_service_quiet|done].
Qed.

Lemma fail_stop_restart_system dev fw :
  fail_stop dev outcome_of (restart_system dev fw).
Proof.
  intros w. exists [EvOp fw restart_system_command false].
  rewrite restart_system_run. split; [done|].
  intros pre ev post e Heq Hans.
  destruct pre as [|? [|? ?]]; [|done..].
  injection Heq as <- <-. split; [done|].
  rewrite app_nil_r in Hans. simpl in Hans. simpl.
  destruct (fw_op dev (history w) fw restart_system_command false); [|done].
  by exists SystemExit.
Qed.

(** A [try] whose [except] clause names the unbound [pandevice]: whatever
    the body raises, the clause raises [NameError], and the handler is
    never entered. *)
Lemma try_unbound_clause {A B} (body : M A) (handler : M B) (orelse : A → M B) w :
  try_except_else body
    (p ← load_global "pandevice"; e ← getattr p "errors"; getattr e "PanURLError")
    handler orelse w
  = (reraise_as (NameError "pandevice") body ≫= orelse) w.
Proof.
  unfold try_except_else, reraise_as, mbind, M_bind.
  by destruct (body w) as [[a|e|] w'].
Qed.

Lemma fail_stop_reraise dev (Q Q' : Event → exn → exn → Prop) e0 {A} (m : M A) :
  (∀ ev e e', Q ev e e' → Q' ev e e0) →
  fail_stop dev Q m → fail_stop dev Q' (reraise_as e0 m).
Proof.
  intros HQ Hm w. destruct (Hm w) as (evs & Hevs & Hlast). exists evs.
  unfold reraise_as. split.
  { by destruct (m w) as [[a|e|] w']. }
  intros pre ev post e Heq Hans.
  destruct (Hlast pre ev post e Heq Hans) as (Hpost & e' & He' & HQe).
  split; [done|]. exists e0. destruct (m w) as [[a|e1|] w']; simpl in *; [done| |done].
  split; [done|]. by eapply HQ.
Qed.

Lemma fail_stop_while_down dev paloalto fuel status fw :
  fail_stop dev outcome_of (while_down dev paloalto fuel status fw).
Proof.
  revert status fw. induction fuel as [|fuel IH]; intros status fw; simpl.
  - case_bool_decide; apply fail_stop_silent; steps_auto.
  - case_bool_decide; [|apply fail_stop_silent; steps_auto].
    apply fail_stop_bind; [|intros [status' fw']; apply IH].
    eapply fail_stop_ext; [intros w; apply try_unbound_clause|].
    apply fail_stop_bind.
    + apply (fail_stop_reraise dev connecting).
      { intros ev e e' [Hc _]. destruct ev; try done. simpl. by right. }
      apply fail_stop_bind; [apply fail_stop_silent; steps_auto|].
      intros _. apply fail_stop_get_fw_connection.
    + intros fw'. apply fail_stop_silent. steps_auto.
Qed.

Lemma fail_stop_check_device_up dev paloalto fuel :
  fail_stop dev outcome_of (check_device_up dev paloalto fuel).
Proof.
  unfold check_device_up, time_sleep.
  apply fail_stop_bind; [apply fail_stop_silent; steps_auto|]. intros _.
  apply fail_stop_bind.
  { apply fail_stop_bind; [apply fail_stop_silent; steps_auto|].
    intros _. apply fail_stop_sleep. }
  intros _. apply fail_stop_bind; [apply fail_stop_while_down|].
  intros [fw|]; apply fail_stop_silent; steps_auto.
Qed.

Lemma fail_stop_main_loop_body dev paloalto fuel service fw rl :
  fail_stop dev outcome_of (main_loop_body dev paloalto fuel service fw rl).
Proof.
  unfold main_loop_body.
  apply fail_stop_bind.
  { eapply fail_stop_weaken; [apply plain_outcome|apply fail_stop_check_ciphers]. }
  intros C. apply fail_stop_bind.
  { eapply fail_stop_weaken; [apply plain_outcome|apply fail_stop_compare_ciphers]. }
  intros [rl' status]. apply fail_stop_bind; [|intros ?; apply fail_stop_silent; steps_auto].
  case_bool_decide; [|apply fail_stop_silent; steps_auto].
  apply fail_stop_bind.
  { eapply fail_stop_weaken; [apply plain_outcome|apply fail_stop_set_ciphers]. }
  intros _. apply fail_stop_bind.
  { eapply fail_stop_weaken; [apply plain_outcome|apply fail_stop_commit_config]. }
  intros _. apply fail_stop_bind.
  { eapply fail_stop_weaken; [apply plain_outcome|apply fail_stop_restart_service]. }
  intros _. apply fail_stop_check_device_up.
Qed.

Lemma fail_stop_main dev paloalto fuel :
  fail_stop dev outcome_of (main dev paloalto fuel).
Proof.
  eapply fail_stop_ext; [intros w; apply main_phases|].
  apply fail_stop_bind.
  - unfold services_phase, main_prelude.
    apply fail_stop_bind.
    { apply fail_stop_bind.
      { eapply fail_stop_weaken; [|apply fail_stop_get_fw_connection].
        intros ev e e' H. by apply plain_outcome, connecting_plain. }
      intros fw. apply fail_stop_silent. steps_auto. }
    intros [fw rl]. apply fail_stop_bind; [apply fail_stop_main_loop_body|].
    intros [[fw1 rl1] s1]. apply fail_stop_bind; [apply fail_stop_main_loop_body|].
    intros [[fw2 rl2] s2]. apply fail_stop_silent. steps_auto.
  - intros [[[fw rl] s1] s2]. unfold escalator, list_of_set.
    apply fail_stop_bind.
    { apply fail_stop_silent. steps_auto. }
    intros rl'. apply fail_stop_bind; [apply fail_stop_silent; steps_auto|].
    intros entries. case_bool_decide.
    + apply fail_stop_restart_system.
    + apply fail_stop_silent. steps_auto.
Qed.

(** ** Termination *)

Lemma total_ret {A} (a : A) : total (mret a).
Proof. by intros w. Qed.

Lemma total_raise {A} e : total (@raise A e).
Proof. by intros w. Qed.

Lemma total_print s : total (print s).
Proof. by intros w. Qed.

Lemma total_sleep n : total (sleep n).
Proof. by intros w. Qed.

Lemma total_list_new init : total (list_new init).
Proof. by intros w. Qed.

Lemma total_list_append l x : total (list_append l x).
Proof. by intros w. Qed.

Lemma total_list_read l : total (list_read l).
Proof. by intros w. Qed.

Lemma total_external {A} ev (f : list Event → exn + A) : total (external ev f).
Proof. intros w. unfold external. by destruct (f _). Qed.

Lemma total_load_global name : total (load_global name).
Proof. unfold load_global. by destruct (lookup_name _ _). Qed.

Lemma total_bind {A B} (m : M A) (f : A → M B) :
  total m → (∀ a, total (f a)) → total (m ≫= f).
Proof.
  intros Hm Hf w. specialize (Hm w). unfold mbind, M_bind.
  destruct (m w) as [[a|e|] w']; [apply Hf|done..].
Qed.

Lemma total_for_each {A} (l : list A) (body : A → M unit) :
  (∀ x, total (body x)) → total (for_each l body).
Proof.
  intros Hbody. induction l as [|x l IH]; simpl; [apply total_ret|].
  apply total_bind; [apply Hbody|]. intros _. apply IH.
Qed.

Lemma total_try_except_all {A} (body handler : M A) :
  total body → total handler → total (try_except_all body handler).
Proof.
  intros Hb Hh w. specialize (Hb w). unfold try_except_all.
  destruct (body w) as [[a|e|] w']; [done|apply Hh|done].
Qed.

Create HintDb total.
#[global] Hint Resolve total_ret total_raise total_print total_sleep total_list_new
  total_list_append total_list_read total_external total_load_global : total.

Ltac total_step :=
  match goal with
  | |- total (_ ≫= _) => apply total_bind; [|intros ?]
  | |- total (for_each _ _) => apply total_for_each; intros ?
  | |- total (try_except_all _ _) => apply total_try_except_all
  | |- total (match ?x with _ => _ end) => destruct x
  | |- total _ => solve [eauto with total]
  end.

Ltac total_auto := repeat total_step.

Lemma total_get_fw_connection dev paloalto : total (get_fw_connection dev paloalto).
Proof. unfold get_fw_connection, config_paloalto. total_auto. Qed.

Lemma total_check_ciphers dev fw service : total (check_ciphers dev fw service).
Proof. unfold check_ciphers. total_auto. Qed.

Lemma total_compare_ciphers D service C rl : total (compare_ciphers D service C rl).
Proof. unfold compare_ciphers. total_auto. Qed.

Lemma total_set_ciphers dev fw service ciphers :
  total (set_ciphers dev fw service ciphers).
Proof. unfold set_ciphers. total_auto. Qed.

Lemma total_commit_config dev fw : total (commit_config dev fw).
Proof. unfold commit_config. total_auto. Qed.

Lemma total_restart_service dev fw service : total (restart_service dev fw service).
Proof. unfold restart_service. total_auto. Qed.

Lemma total_restart_system dev fw : total (restart_system dev fw).
Proof. unfold restart_system. total_auto. Qed.

#[global] Hint Resolve total_get_fw_connection total_check_ciphers
  total_compare_ciphers total_set_ciphers total_commit_config
  total_restart_service total_restart_system : total.

(** One unit of fuel is enough for the loop of [check_device_up]: its
    first round either leaves with the handle or raises. *)
Lemma total_while_down dev paloalto fuel fw :
  total (while_down dev paloalto (S fuel) "down" fw).
Proof.
  intros w. cbn [while_down].
  rewrite (bool_decide_eq_true_2 _ (eq_refl "down")).
  unfold mbind at 1, M_bind at 1. rewrite try_unbound_clause.
  unfold reraise_as, mbind, M_bind.
  pose proof (total_get_fw_connection dev paloalto
                (print "Connecting to the device..." w).2) as Hconn.
  simpl. destruct (get_fw_connection dev paloalto _) as [[fw'|e|] w']; [|done..].
  simpl. by rewrite while_down_up.
Qed.

Lemma total_check_device_up dev paloalto fuel :
  total (check_device_up dev paloalto (S fuel)).
Proof.
  unfold check_device_up, time_sleep. total_auto. apply total_while_down.
Qed.

#[global] Hint Resolve total_check_device_up : total.

Lemma total_main_loop_body dev paloalto fuel service fw rl :
  total (main_loop_body dev paloalto (S fuel) service fw rl).
Proof. unfold main_loop_body. total_auto. Qed.

#[global] Hint Resolve total_main_loop_body : total.

(** With one unit of fuel or more, [main] returns or raises. *)
Lemma total_main dev paloalto fuel : total (main dev paloalto (S fuel)).
Proof.
  unfold main, list_of_set, service_list. cbn [main_loop]. total_auto.
Qed.

(** ** Exceptions raised inside the remediation *)

(** Whatever one of [set_ciphers], [commit_config], [restart_service]
    raises, be it an exception of the device or one of the script (as when
    [restart_service] finds no [result/member] node), is what the round
    raises. *)
Lemma remediation_exception_propagates dev paloalto fuel service fw rl w C w1 e w' :
  check_ciphers dev fw service w = (Ok C, w1) →
  ¬ cipher_list ⊆ C →
  remediation_raises dev fw service
    (compare_ciphers cipher_list service C rl w1).2 e w' →
  main_loop_body dev paloalto fuel service fw rl w = (Raise e, w').
Proof.
  intros Hcheck Hsub Hraise. unfold main_loop_body.
  erewrite bind_Ok; [|exact Hcheck].
  rewrite compare_ciphers_run in Hraise. simpl in Hraise.
  rewrite (bool_decide_eq_false_2 _ Hsub) in Hraise.
  erewrite bind_Ok; [|apply compare_ciphers_run]. cbv beta iota zeta.
  rewrite (bool_decide_eq_false_2 _ Hsub). simpl bool_decide.
  apply bind_Raise.
  destruct Hraise as [Hset|(w2 & Hset & [Hcommit|(w3 & Hcommit & Hrestart)])].
  - by apply bind_Raise.
  - erewrite bind_Ok; [|exact Hset]. by apply bind_Raise.
  - erewrite bind_Ok; [|exact Hset]. erewrite bind_Ok; [|exact Hcommit].
    by apply bind_Raise.
Qed.

(** What a round raises is what [main] raises. *)
Lemma round_exception_propagates dev paloalto fuel w fw rl w0 e w' :
  main_prelude dev paloalto w = (Ok (fw, rl), w0) →
  (main_loop_body dev paloalto fuel "mgmt" fw rl w0 = (Raise e, w') ∨
   ∃ fw1 rl1 status w1,
     main_loop_body dev paloalto fuel "mgmt" fw rl w0 = (Ok (fw1, rl1, status), w1) ∧
     main_loop_body dev paloalto fuel "ha" fw1 rl1 w1 = (Raise e, w')) →
  main dev paloalto fuel w = (Raise e, w').
Proof.
  intros Hpre Hround. rewrite main_phases. apply bind_Raise.
  unfold services_phase. erewrite bind_Ok; [|exact Hpre]. cbv beta iota.
  destruct Hround as [Hmgmt|(fw1 & rl1 & status & w1 & Hmgmt & Hha)].
  - by apply bind_Raise.
  - erewrite bind_Ok; [|exact Hmgmt]. cbv beta iota. by apply bind_Raise.
Qed.

(** ** Where exceptions go *)

(** C8. In a run of [main], a call that the device answers with an
    exception is the last event of the run, and the run ends with an
    exception: [SystemExit] when the call is the system restart (the
    exception is dropped and the process exits), the exception of the
    device itself when the call is an add-cipher write, the commit or the
    restart of a service. And whatever [set_ciphers], [commit_config] or
    [restart_service] raises in the round of either service, [main] raises
    it, in the world in which it was raised. *)
Theorem exceptions_end_the_run (dev : Device) (paloalto : gmap string string)
    (fuel : nat) (w : World) :
  (∀ pre ev post e,
     history (main dev paloalto fuel w).2 = history w ++ pre ++ ev :: post →
     answer dev (history w ++ pre) ev = Some e →
     post = [] ∧
     ∃ e', (main dev paloalto fuel w).1 = Raise e' ∧ outcome_of ev e e') ∧
  (∀ fw rl w0 e w',
     main_prelude dev paloalto w = (Ok (fw, rl), w0) →
     (round_raises dev "mgmt" fw rl w0 e w' ∨
      ∃ fw1 rl1 status w1,
        main_loop_body dev paloalto fuel "mgmt" fw rl w0
          = (Ok (fw1, rl1, status), w1) ∧
        round_raises dev "ha" fw1 rl1 w1 e w') →
     main dev paloalto fuel w = (Raise e, w')).
Proof.
  split.
  - intros pre ev post e Hhist Hans.
    destruct (fail_stop_main dev paloalto fuel w) as (evs & Hevs & Hlast).
    rewrite Hevs in Hhist. apply app_inv_head in Hhist.
    by apply (Hlast pre ev post e).
  - intros fw rl w0 e w' Hpre Hround.
    apply (round_exception_propagates dev paloalto fuel w fw rl w0 e w' Hpre).
    destruct Hround as [(C & w1 & Hcheck & Hsub & Hraise)
                       |(fw1 & rl1 & status & w1 & Hmgmt & C & w2 & Hcheck & Hsub & Hraise)].
    + left. by eapply remediation_exception_propagates.
    + right. exists fw1, rl1, status, w1. split; [done|].
      by eapply remediation_exception_propagates.
Qed.

Lemma exceptions_end_the_run_witness :
  (@nil Event = [] ∧
   ∃ e', (main commit_rejecting_device sample_config 1 init_world).1 = Raise e'
         ∧ outcome_of (EvCommit 0 true commit_command)
             (LibraryError "pandevice.errors.PanCommitFailed") e') ∧
  main terse_device sample_config 1 init_world
    = (Raise (AttributeError "text"),
       (main terse_device sample_config 1 init_world).2).
Proof.
  split.
  - refine (proj1 (exceptions_end_the_run commit_rejecting_device sample_config 1
                     init_world)
              (EvConnect "192.0.2.1" "secret" :: EvGet 0 (base_xpath "mgmt")
                 :: (add_cipher 0 "mgmt" <$> cipher_list))
              (EvCommit 0 true commit_command) []
              (LibraryError "pandevice.errors.PanCommitFailed") _ _).
    + vm_compute. reflexivity.
    + reflexivity.
  - refine (proj2 (exceptions_end_the_run terse_device sample_config 1 init_world)
              0 0 (main_prelude terse_device sample_config init_world).2
              (AttributeError "text")
              (main terse_device sample_config 1 init_world).2 _ _).
    + vm_compute. reflexivity.
    + left.
      exists [], (check_ciphers terse_device 0 "mgmt"
                    (main_prelude terse_device sample_config init_world).2).2.
      split; [vm_compute; reflexivity|].
      split.
      { intros H. assert ("aes128-cbc" ∈ @nil string) as Hin by (apply H; left).
        by apply elem_of_nil in Hin. }
      right. eexists. split; [vm_compute; reflexivity|].
      right. eexists. split; [vm_compute; reflexivity|].
      vm_compute. reflexivity.
Defined.

Example commit_exception_propagates :
  (main commit_rejecting_device sample_config 1 init_world).1
  = Raise (LibraryError "pandevice.errors.PanCommitFailed").
Proof. vm_compute. reflexivity. Qed.

Example system_restart_exception_exits :
  (main rebooting_device sample_config 1 init_world).1 = Raise SystemExit.
Proof. vm_compute. reflexivity. Qed.

Example attribute_error_propagates :
  (main terse_device sample_config 1 init_world).1 = Raise (AttributeError "text").
Proof. vm_compute. reflexivity. Qed.

(** * Further properties of the script *)

(** ** The configuration *)

(** X1. The key is looked up before the address, and both before anything
    is asked of the device: when [config.paloalto] has no ['key'], [main]
    raises [KeyError] for ['key'], and when it has the key but no
    ['firewall_ip'], [KeyError] for ['firewall_ip']; in both cases the
    world is as it was (no call, no line printed). *)
Theorem missing_config_key (dev : Device) (paloalto : gmap string string)
    (fuel : nat) (w : World) :
  (paloalto !! "key" = None →
   main dev paloalto fuel w = (Raise (KeyError "key"), w)) ∧
  (∀ key, paloalto !! "key" = Some key → paloalto !! "firewall_ip" = None →
   main dev paloalto fuel w = (Raise (KeyError "firewall_ip"), w)).
Proof.
  split.
  - intros Hkey. unfold main. apply bind_Raise.
    unfold get_fw_connection. apply bind_Raise.
    unfold config_paloalto, mbind, M_bind. simpl. by rewrite Hkey.
  - intros key Hkey Hip. unfold main. apply bind_Raise.
    unfold get_fw_connection.
    erewrite bind_Ok; cycle 1.
    { unfold config_paloalto, mbind, M_bind. simpl. rewrite Hkey. reflexivity. }
    apply bind_Raise. unfold config_paloalto, mbind, M_bind. simpl. by rewrite Hip.
Qed.

Lemma missing_config_key_witness :
  main (configured_device [] []) ∅ 1 init_world = (Raise (KeyError "key"), init_world) ∧
  main (configured_device [] []) (<["key" := "secret"]> ∅) 1 init_world
    = (Raise (KeyError "firewall_ip"), init_world).
Proof.
  split.
  - apply (proj1 (missing_config_key (configured_device [] []) ∅ 1 init_world)).
    reflexivity.
  - apply (proj2 (missing_config_key (configured_device [] [])
                    (<["key" := "secret"]> ∅) 1 init_world) "secret");
      reflexivity.
Defined.

(** ** The wait for the device, again *)

(** X2. When the connection attempt after the wait succeeds,
    [check_device_up] has slept 60 seconds once, made that one attempt and
    nothing else, and returns the handle of the new connection. *)
Theorem check_device_up_reconnects (dev : Device) (paloalto : gmap string string)
    (fuel : nat) (w : World) (key fw_ip : string) (fw : Firewall) :
  paloalto !! "key" = Some key →
  paloalto !! "firewall_ip" = Some fw_ip →
  firewall_Firewall dev (history w ++ [EvSleep 60]) fw_ip key = inr fw →
  (check_device_up dev paloalto (S fuel) w).1 = Ok fw ∧
  history (check_device_up dev paloalto (S fuel) w).2 =
    history w ++ [EvSleep 60; EvConnect fw_ip key].
Proof.
  intros Hkey Hip Hconn. rewrite (check_device_up_run _ _ _ _ key fw_ip); [|done..].
  simpl. rewrite Hconn. simpl. by rewrite <- app_assoc.
Qed.

Lemma check_device_up_reconnects_witness :
  (check_device_up (recovering_device 0) sample_config 1 init_world).1 = Ok 0 ∧
  history (check_device_up (recovering_device 0) sample_config 1 init_world).2 =
    [] ++ [EvSleep 60; EvConnect "192.0.2.1" "secret"].
Proof.
  refine (check_device_up_reconnects (recovering_device 0) sample_config 0
            init_world "secret" "192.0.2.1" 0 _ _ _);
    reflexivity.
Defined.

Lemma bind_ext {A B} (m : M A) (f g : A → M B) w :
  (∀ a w', f a w' = g a w') → (m ≫= f) w = (m ≫= g) w.
Proof.
  intros Hfg. unfold mbind, M_bind. destruct (m w) as [[a|e|] w']; [apply Hfg|done..].
Qed.

(** One round of the loop of [check_device_up], whatever the
    configuration holds: the amount of fuel left plays no part. *)
Lemma while_down_round_any dev paloalto fuel fw0 w :
  while_down dev paloalto (S fuel) "down" fw0 w =
    match (print "Connecting to the device...";; get_fw_connection dev paloalto) w with
    | (Ok fw, w1) =>
        (Ok (Some fw),
         (print ("The device is back up.  Continuing to next step..." +:+ NL) w1).2)
    | (Raise _, w1) => (Raise (NameError "pandevice"), w1)
    | (OutOfFuel, w1) => (OutOfFuel, w1)
    end.
Proof.
  cbn [while_down]. rewrite (bool_decide_eq_true_2 _ (eq_refl "down")).
  unfold mbind at 1, M_bind at 1. rewrite try_unbound_clause.
  unfold reraise_as, mbind at 1, M_bind at 1.
  destruct ((print "Connecting to the device...";; get_fw_connection dev paloalto) w)
    as [[fw|e|] w1]; [|done..].
  unfold mbind, M_bind. simpl. by rewrite while_down_up.
Qed.

Lemma bind_cong {A B} (m m' : M A) (f g : A → M B) w :
  (∀ w', m w' = m' w') → (∀ a w', f a w' = g a w') → (m ≫= f) w = (m' ≫= g) w.
Proof. intros Hm Hfg. unfold mbind, M_bind. rewrite Hm. by apply bind_ext. Qed.

Lemma check_device_up_any_fuel dev paloalto fuel w :
  check_device_up dev paloalto (S fuel) w = check_device_up dev paloalto 1 w.
Proof.
  unfold check_device_up. apply bind_ext. intros _ w1. apply bind_ext. intros _ w2.
  apply bind_cong; [|done]. intros w3. by rewrite !while_down_round_any.
Qed.

Lemma main_loop_body_any_fuel dev paloalto fuel service fw rl w :
  main_loop_body dev paloalto (S fuel) service fw rl w
  = main_loop_body dev paloalto 1 service fw rl w.
Proof.
  unfold main_loop_body. apply bind_ext. intros C w1.
  apply bind_ext. intros [rl' status] w2. apply bind_cong; [|done]. intros w3.
  case_bool_decide; [|done].
  do 3 (apply bind_ext; intros _ ?). apply check_device_up_any_fuel.
Qed.

(** X3. The loop of [check_device_up] never goes round twice: whatever the
    device answers, its first round either leaves with a handle or raises.
    So the wait, and with it [main], gives with any amount of fuel what it
    gives with one unit, and never stops for lack of fuel: [main] always
    returns or raises. *)
Theorem wait_loop_runs_once (dev : Device) (paloalto : gmap string string)
    (fuel : nat) (w : World) :
  check_device_up dev paloalto (S fuel) w = check_device_up dev paloalto 1 w ∧
  main dev paloalto (S fuel) w = main dev paloalto 1 w ∧
  (check_device_up dev paloalto 1 w).1 ≠ OutOfFuel ∧
  (main dev paloalto 1 w).1 ≠ OutOfFuel.
Proof.
  split; [apply check_device_up_any_fuel|]. split.
  - unfold main. apply bind_ext. intros fw w1. apply bind_ext. intros rl w2.
    apply bind_cong; [|done]. intros w3. unfold service_list. cbn [main_loop].
    apply bind_cong; [apply main_loop_body_any_fuel|].
    intros [[fw1 rl1] s1] w4. apply bind_cong; [apply main_loop_body_any_fuel|done].
  - split; [apply total_check_device_up|apply total_main].
Qed.

(** ** The restart of a service *)

(** X4. [restart_service] sends one command, the restart of that service,
    with [cmd_xml=False]. When the call raises, so does [restart_service];
    when the answer has no [result/member] node, the command has been sent
    and [restart_service] raises [AttributeError]; otherwise it returns,
    having printed the text of the first such node and the status attribute
    of the answer (the word None for what is missing). *)
Theorem restart_service_outcome (dev : Device) (fw : Firewall) (service : string)
    (w : World) :
  let cmd := restart_service_command service in
  let header := NL +:+ "Restarting " +:+ service +:+ " service..." +:+ NL in
  history (restart_service dev fw service w).2 = history w ++ [EvOp fw cmd false] ∧
  match fw_op dev (history w) fw cmd false with
  | inl e =>
      (restart_service dev fw service w).1 = Raise e ∧
      stdout (restart_service dev fw service w).2 = stdout w ++ [header]
  | inr results =>
      match find [Self; Child "result"; Child "member"] results with
      | None =>
          (restart_service dev fw service w).1 = Raise (AttributeError "text") ∧
          stdout (restart_service dev fw service w).2 = stdout w ++ [header]
      | Some member =>
          (restart_service dev fw service w).1 = Ok tt ∧
          stdout (restart_service dev fw service w).2 =
            stdout w ++ [header;
                         py_str (text member) +:+ "...  "
                         +:+ py_str (dict_get (attrib results) "status") +:+ NL]
      end
  end.
Proof.
  intros cmd header. unfold restart_service, external, mbind, M_bind. simpl.
  fold cmd. destruct (fw_op dev (history w) fw cmd false) as [e|results]; simpl.
  { done. }
  destruct (find [Self; Child "result"; Child "member"] results) as [member|]; simpl.
  - split; [done|]. split; [done|]. by rewrite <- app_assoc.
  - done.
Qed.

(** ** The commit *)

Lemma print_each_run (l : list string) (w : World) :
  for_each l (λ message, print (message +:+ NL)) w =
    (Ok tt, {| history := history w;
               stdout := stdout w ++ ((λ message, message +:+ NL) <$> l);
               heap := heap w |}).
Proof.
  revert w. induction l as [|message l IH]; intros w; simpl.
  - rewrite app_nil_r. by destruct w.
  - unfold mbind, M_bind. simpl. rewrite IH. simpl. by rewrite <- app_assoc.
Qed.

(** X5. [commit_config] asks for one commit, synchronous and with the
    fixed description. When the commit raises, so does [commit_config], and
    nothing is printed after the first line. Otherwise it returns, having
    printed the heading and then every message of the list on a line of its
    own (nothing more for an empty list), or the single value when the
    messages are not a list. *)
Theorem commit_config_outcome (dev : Device) (fw : Firewall) (w : World) :
  let header := NL +:+ "Committing config..." in
  history (commit_config dev fw w).2
    = history w ++ [EvCommit fw true commit_command] ∧
  heap (commit_config dev fw w).2 = heap w ∧
  match fw_commit dev (history w) fw true commit_command with
  | inl e =>
      (commit_config dev fw w).1 = Raise e ∧
      stdout (commit_config dev fw w).2 = stdout w ++ [header]
  | inr (MsgList l) =>
      (commit_config dev fw w).1 = Ok tt ∧
      stdout (commit_config dev fw w).2 =
        stdout w ++ [header; "Commit Status:" +:+ NL]
                 ++ ((λ message, message +:+ NL) <$> l)
  | inr (MsgOther repr) =>
      (commit_config dev fw w).1 = Ok tt ∧
      stdout (commit_config dev fw w).2 =
        stdout w ++ [header; "Commit Status:" +:+ NL; repr]
  end.
Proof.
  intros header. unfold commit_config, external, mbind, M_bind. simpl.
  destruct (fw_commit dev (history w) fw true commit_command) as [e|[l|repr]]; simpl.
  - done.
  - rewrite print_each_run. simpl. by rewrite <- !app_assoc.
  - by rewrite <- !app_assoc.
Qed.

(** ** The accumulator, again *)

(** X11. [list(set(results_list))] makes a new list object and leaves the
    old one, and every other, as it is; the new list has the entries of the
    old one, each once. *)
Theorem list_of_set_distinct (results_list : loc) (w : World) (xs : list string) :
  heap w !! results_list = Some xs →
  ∃ ys,
    list_of_set results_list w
      = (Ok (length (heap w)),
         {| history := history w; stdout := stdout w; heap := heap w ++ [ys] |})
    ∧ NoDup ys ∧ (∀ x, x ∈ ys ↔ x ∈ xs).
Proof.
  intros Hxs. exists (elements (list_to_set xs : gset string)). split.
  - unfold list_of_set, list_read, list_new, mbind, M_bind. simpl. by rewrite Hxs.
  - split; [apply NoDup_elements|].
    intros x. by rewrite elem_of_elements, elem_of_list_to_set.
Qed.

Lemma list_of_set_distinct_witness :
  ∃ ys,
    list_of_set 0 {| history := []; stdout := [];
                     heap := [["ciphers_not_set"; "ciphers_not_set"]] |}
      = (Ok 1, {| history := []; stdout := [];
                  heap := [["ciphers_not_set"; "ciphers_not_set"]] ++ [ys] |})
    ∧ NoDup ys ∧ (∀ x, x ∈ ys ↔ x ∈ ["ciphers_not_set"; "ciphers_not_set"]).
Proof.
  refine (list_of_set_distinct 0
            {| history := []; stdout := [];
               heap := [["ciphers_not_set"; "ciphers_not_set"]] |}
            ["ciphers_not_set"; "ciphers_not_set"] _).
  reflexivity.
Defined.

(** ** The comparator, again *)

(** X8. The verdict of the comparator only improves when ciphers are taken
    off the wanted list or added to the configured one, and so takes no
    notice of order or repetition in either list: a service satisfied for
    D and C is satisfied for every D' within D and every C' that holds C. *)
Theorem compare_ciphers_monotone (D D' C C' : list string) (service : string)
    (results_list : loc) (w : World) :
  D' ⊆ D → C ⊆ C' →
  (compare_ciphers D service C results_list w).1 = Ok (results_list, "ciphers_set") →
  (compare_ciphers D' service C' results_list w).1 = Ok (results_list, "ciphers_set").
Proof.
  intros HD HC. rewrite !compare_ciphers_run. simpl.
  case_bool_decide as Hsub; [|done]. intros _.
  rewrite bool_decide_eq_true_2; [done|].
  intros c Hc. apply HC, Hsub, HD, Hc.
Qed.

Lemma compare_ciphers_monotone_witness :
  (compare_ciphers ["b"; "a"; "b"] "mgmt" ["c"; "b"; "a"; "a"] 0 init_world).1
  = Ok (0, "ciphers_set").
Proof.
  refine (compare_ciphers_monotone ["a"; "b"] ["b"; "a"; "b"] ["a"; "b"]
            ["c"; "b"; "a"; "a"] "mgmt" 0 init_world _ _ _).
  - apply (bool_decide_unpack _). vm_compute. exact I.
  - apply (bool_decide_unpack _). vm_compute. exact I.
  - vm_compute. reflexivity.
Defined.

(** ** The order of the calls of a round *)

Lemma follows_silent {A} (m : M A) :
  steps (extends (λ _, False)) m → follows [] m.
Proof.
  intros Hm w. destruct (Hm w) as (evs & Hevs & Hnone). exists 0.
  destruct evs as [|ev evs]; [|by apply Forall_cons in Hnone as [[] _]].
  split; [done|]. split; [by rewrite Hevs|done].
Qed.

Lemma follows_external {A} ev (f : list Event → exn + A) :
  follows [ev] (external ev f).
Proof.
  intros w. exists 1. unfold external. by destruct (f (history w)).
Qed.

Lemma follows_sleep n : follows [EvSleep n] (sleep n).
Proof. intros w. by exists 1. Qed.

Lemma follows_bind {A B} (s1 s2 : list Event) (m : M A) (f : A → M B) :
  follows s1 m → (∀ a, follows s2 (f a)) → follows (s1 ++ s2) (m ≫= f).
Proof.
  intros Hm Hf w. destruct (Hm w) as (k1 & Hk1 & Hhist1 & Hall1).
  unfold mbind, M_bind. destruct (m w) as [[a|e|] w1]; simpl in *.
  - destruct (Hf a w1) as (k2 & Hk2 & Hhist2 & Hall2).
    rewrite (Hall1 a eq_refl) in Hhist1. rewrite take_ge in Hhist1; [|done].
    exists (length s1 + k2). split; [rewrite length_app; lia|]. split.
    + by rewrite Hhist2, Hhist1, take_app_add, app_assoc.
    + intros b Hb. rewrite (Hall2 b Hb). by rewrite length_app.
  - exists k1. split; [rewrite length_app; lia|].
    split; [by rewrite take_app_le|done].
  - exists k1. split; [rewrite length_app; lia|].
    split; [by rewrite take_app_le|done].
Qed.

Ltac follows_silent_tac := apply follows_silent; solve [steps_auto].

Lemma follows_set_ciphers dev fw service D :
  follows (add_cipher fw service <$> D) (set_ciphers dev fw service D).
Proof.
  unfold set_ciphers.
  apply (follows_bind [] _); [follows_silent_tac|]. intros _.
  induction D as [|c D IH]; simpl.
  - follows_silent_tac.
  - apply (follows_bind [add_cipher fw service c] _); [|intros _; apply IH].
    apply (follows_bind [add_cipher fw service c] []); [apply follows_external|].
    intros results. follows_silent_tac.
Qed.

Lemma follows_commit_config dev fw :
  follows [EvCommit fw true commit_command] (commit_config dev fw).
Proof.
  unfold commit_config.
  apply (follows_bind [] _); [follows_silent_tac|]. intros _.
  apply (follows_bind [_] []); [apply follows_external|]. intros results.
  follows_silent_tac.
Qed.

Lemma follows_restart_service dev fw service :
  follows [EvOp fw (restart_service_command service) false]
    (restart_service dev fw service).
Proof.
  unfold restart_service.
  apply (follows_bind [] _); [follows_silent_tac|]. intros _.
  apply (follows_bind [_] []); [apply follows_external|]. intros results.
  follows_silent_tac.
Qed.

Lemma follows_check_device_up dev (paloalto : gmap string string) fuel key fw_ip :
  paloalto !! "key" = Some key →
  paloalto !! "firewall_ip" = Some fw_ip →
  follows [EvSleep 60; EvConnect fw_ip key] (check_device_up dev paloalto fuel).
Proof.
  intros Hkey Hip w. destruct fuel as [|fuel].
  - exists 1. split; [simpl; lia|]. split; [done|]. intros a. done.
  - exists 2. rewrite (check_device_up_run _ _ _ _ key fw_ip); [|done..]. simpl.
    split; [done|].
    destruct (firewall_Firewall dev _ fw_ip key); simpl; by rewrite <- ?app_assoc.
Qed.

Lemma bind_ret_run {A B} (m : M A) (g : A → B) w :
  (m ≫= λ a, mret (g a)) w =
    match m w with
    | (Ok a, w') => (Ok (g a), w')
    | (Raise e, w') => (Raise e, w')
    | (OutOfFuel, w') => (OutOfFuel, w')
    end.
Proof. reflexivity. Qed.

Lemma follows_remediation dev (paloalto : gmap string string) fuel fw service
    key fw_ip :
  paloalto !! "key" = Some key →
  paloalto !! "firewall_ip" = Some fw_ip →
  follows (remediation_script fw service fw_ip key)
    (set_ciphers dev fw service cipher_list;;
     commit_config dev fw;;
     restart_service dev fw service;;
     check_device_up dev paloalto fuel).
Proof.
  intros Hkey Hip. unfold remediation_script.
  apply follows_bind; [apply follows_set_ciphers|]. intros _.
  apply (follows_bind [_] [_; _; _]); [apply follows_commit_config|]. intros _.
  apply (follows_bind [_] [_; _]); [apply follows_restart_service|]. intros _.
  by apply follows_check_device_up.
Qed.

(** X6. The calls of the round of a service come in one fixed order: the
    read; then, if the service is found wanting, the eight writes in the
    order of the list, the commit, the restart of the service, the wait of
    60 seconds and the new connection. Every run of the round makes the
    first [k] of these calls and no other, with [k] at least 1. A round
    that returns ['ciphers_set'] made the read only and keeps its handle;
    one that returns ['ciphers_not_set'] made all thirteen calls. *)
Theorem round_order (dev : Device) (paloalto : gmap string string) (fuel : nat)
    (service : string) (fw : Firewall) (results_list : loc) (w : World)
    (key fw_ip : string) :
  paloalto !! "key" = Some key →
  paloalto !! "firewall_ip" = Some fw_ip →
  let run := main_loop_body dev paloalto fuel service fw results_list w in
  let script := round_script fw service fw_ip key in
  length script = 13 ∧
  ∃ k : nat,
    (1 ≤ k ≤ 13)%nat ∧
    history run.2 = history w ++ take k script ∧
    ∀ fw' rl' status, run.1 = Ok (fw', rl', status) →
      (status = "ciphers_set" ∧ k = 1 ∧ fw' = fw) ∨
      (status = "ciphers_not_set" ∧ k = 13).
Proof.
  intros Hkey Hip run script. split; [done|]. subst run script.
  unfold main_loop_body, round_script.
  pose proof (check_ciphers_run dev fw service w) as Hcheck. simpl in Hcheck.
  destruct (xapi_get dev (history w) fw (base_xpath service)) as [e|results].
  { erewrite bind_Raise; [|exact Hcheck]. exists 1. simpl.
    split; [lia|]. split; [done|]. intros fw' rl' status [=]. }
  erewrite bind_Ok; [|exact Hcheck].
  erewrite bind_Ok; [|apply compare_ciphers_run]. cbv beta iota zeta.
  case_bool_decide as Hsub.
  { rewrite bool_decide_eq_false_2; [|done]. exists 1. simpl.
    split; [lia|]. split; [done|]. intros fw' rl' status [= <- <- <-]. by left. }
  rewrite bool_decide_eq_true_2; [|done].
  rewrite bind_ret_run.
  match goal with
  | |- context [match ?m ?w2 with _ => _ end] =>
      destruct (follows_remediation dev paloalto fuel fw service key fw_ip Hkey Hip w2)
        as (k & Hk & Hhist & Hall);
      revert Hhist Hall; destruct (m w2) as [[fw1|e|] w3]; intros Hhist Hall
  end;
  change (length (remediation_script fw service fw_ip key)) with 12 in Hk, Hall;
  simpl in Hhist; exists (S k); (split; [lia|]); simpl;
  (split; [by rewrite Hhist, <- app_assoc|]).
  - intros fw' rl' status [= <- <- <-]. right. split; [done|].
    f_equal. by apply (Hall fw1).
  - done.
  - done.
Qed.

Lemma round_order_witness :
  length (round_script 0 "mgmt" "192.0.2.1" "secret") = 13 ∧
  ∃ k : nat,
    (1 ≤ k ≤ 13)%nat ∧
    history (main_loop_body (configured_device [] []) sample_config 1 "mgmt" 0 0
               init_world).2
      = history init_world ++ take k (round_script 0 "mgmt" "192.0.2.1" "secret") ∧
    ∀ fw' rl' status,
      (main_loop_body (configured_device [] []) sample_config 1 "mgmt" 0 0
         init_world).1 = Ok (fw', rl', status) →
      (status = "ciphers_set" ∧ k = 1 ∧ fw' = 0) ∨
      (status = "ciphers_not_set" ∧ k = 13).
Proof.
  refine (round_order (configured_device [] []) sample_config 1 "mgmt" 0 0
            init_world "secret" "192.0.2.1" _ _); reflexivity.
Defined.

Example round_of_wanting_service :
  history (main_loop_body (configured_device [] []) sample_config 1 "mgmt" 0 0
             init_world).2
  = round_script 0 "mgmt" "192.0.2.1" "secret".
Proof. vm_compute. reflexivity. Qed.

Lemma bind_history {A B} (P : Event → Prop) (m : M A) (f : A → M B) w :
  (∀ a, steps (extends P) (f a)) →
  ∃ evs, history ((m ≫= f) w).2 = history (m w).2 ++ evs.
Proof.
  intros Hf. unfold mbind, M_bind. destruct (m w) as [[a|e|] w1]; simpl.
  - destruct (Hf a w1) as (evs & Hevs & _). by exists evs.
  - exists []. by rewrite app_nil_r.
  - exists []. by rewrite app_nil_r.
Qed.

(** X7. What the read of a service shows decides its round. When the read
    shows every cipher of the list, the round makes no other call, returns
    ['ciphers_set'] and keeps its handle. When a cipher is missing, the
    write of the first cipher of the list follows the read at once,
    whether or not that cipher is among those configured, and the round
    can only return ['ciphers_not_set']. *)
Theorem round_decision (dev : Device) (paloalto : gmap string string) (fuel : nat)
    (service : string) (fw : Firewall) (results_list : loc) (w : World)
    (results : Element) :
  xapi_get dev (history w) fw (base_xpath service) = inr results →
  let run := main_loop_body dev paloalto fuel service fw results_list w in
  (cipher_list ⊆ configured_ciphers service results →
   run.1 = Ok (fw, results_list, "ciphers_set") ∧
   history run.2 = history w ++ [EvGet fw (base_xpath service)]) ∧
  (¬ cipher_list ⊆ configured_ciphers service results →
   (∃ evs, history run.2 =
             history w ++ [EvGet fw (base_xpath service);
                           add_cipher fw service "aes128-cbc"] ++ evs) ∧
   ∀ fw' rl' status, run.1 = Ok (fw', rl', status) → status = "ciphers_not_set").
Proof.
  intros Hget run. subst run. split.
  - intros Hsub.
    destruct (main_loop_body_satisfied dev paloalto fuel service fw results_list w
                results Hget Hsub) as (w' & Hrun & Hhist & _).
    by rewrite Hrun.
  - intros Hsub. unfold main_loop_body.
    erewrite bind_Ok; [|rewrite check_ciphers_run; simpl; rewrite Hget; reflexivity].
    erewrite bind_Ok; [|apply compare_ciphers_run]. cbv beta iota zeta.
    rewrite (bool_decide_eq_false_2 _ Hsub).
    rewrite bool_decide_eq_true_2; [|done].
    rewrite bind_ret_run.
    match goal with
    | |- context [match (set_ciphers ?d ?f ?s ?l ≫= ?rest) ?w2 with _ => _ end] =>
        destruct (bind_history quiet (set_ciphers d f s l) rest w2) as (evs & Hevs);
          [intros _; steps_auto|];
        rewrite set_ciphers_unfold in Hevs;
        destruct (set_cipher_loop d f s l
                    (print ("Setting " +:+ s +:+ " ciphers..." +:+ NL) w2).2)
          as (k & Hk & Hmatch);
        rewrite Hk in Hevs; clear Hk;
        assert (k ≠ 0) as Hk0;
          [|revert Hevs; destruct ((set_ciphers d f s l ≫= rest) w2) as [[fw1|e|] w3];
            intros Hevs]
    end.
    { destruct (for_each _ _ _).1 as [[]|e|]; [by subst| |done].
      by destruct Hmatch as (j & ? & -> & _). }
    all: destruct k as [|k]; [done|]; simpl in Hevs |- *.
    all: split; [exists ((add_cipher fw service <$> take k (tail cipher_list)) ++ evs);
                 by rewrite Hevs, <- !app_assoc|].
    + by intros fw' rl' status [= <- <- <-].
    + done.
    + done.
Qed.

Lemma round_decision_witness :
  (main_loop_body (configured_device cipher_list []) sample_config 1 "mgmt" 0 0
     init_world).1 = Ok (0, 0, "ciphers_set") ∧
  history (main_loop_body (configured_device cipher_list []) sample_config 1 "mgmt"
             0 0 init_world).2
    = history init_world ++ [EvGet 0 (base_xpath "mgmt")].
Proof.
  refine (proj1 (round_decision (configured_device cipher_list []) sample_config 1
                   "mgmt" 0 0 init_world (get_response "mgmt" cipher_list) _) _).
  - reflexivity.
  - apply (bool_decide_unpack _). vm_compute. exact I.
Defined.

(** ** The service of the calls of a round *)

Lemma string_length_app (s t : string) :
  String.length (s +:+ t) = String.length s + String.length t.
Proof. induction s as [|a s IH]; simpl; [done|]. by rewrite IH. Qed.

Lemma string_app_inj_length (s s' t t' : string) :
  String.length s = String.length s' → s +:+ t = s' +:+ t' → s = s'.
Proof.
  revert s'. induction s as [|a s IH]; intros [|a' s'] Hlen Heq; simpl in *;
    [done..|].
  injection Heq as -> Heq. f_equal. apply IH; [lia|done].
Qed.

Lemma base_xpath_inj (service service' : string) :
  base_xpath service = base_xpath service' → service = service'.
Proof.
  unfold base_xpath. intros Heq.
  by do 2 apply (inj (String.app _)) in Heq.
Qed.

Lemma restart_service_command_inj (service service' : string) :
  restart_service_command service = restart_service_command service' →
  service = service'.
Proof.
  unfold restart_service_command. intros Heq.
  apply (inj (String.app _)) in Heq.
  eapply string_app_inj_length; [|exact Heq].
  apply (f_equal String.length) in Heq.
  rewrite !string_length_app in Heq. simpl in Heq. lia.
Qed.

Ltac service_auto :=
  steps_auto; try (first [reflexivity | done | split; reflexivity]).

Lemma service_time_sleep service : steps (extends (about_service service)) (time_sleep 60).
Proof. unfold time_sleep. service_auto. Qed.

Lemma service_get_fw_connection dev paloalto service :
  steps (extends (about_service service)) (get_fw_connection dev paloalto).
Proof. unfold get_fw_connection. service_auto. Qed.

Lemma service_while_down dev paloalto service fuel status fw :
  steps (extends (about_service service)) (while_down dev paloalto fuel status fw).
Proof.
  revert status fw. induction fuel as [|fuel IH]; intros status fw; simpl.
  - service_auto.
  - pose proof (service_time_sleep service). pose proof (service_get_fw_connection dev paloalto service).
    service_auto.
Qed.

(** X9. The round of a service concerns that service alone: every read and
    write of the round is under the configuration path of the service, its
    one operational command is the restart of that service, its commit is
    the synchronous commit with the fixed description, and every sleep
    lasts 60 seconds. Distinct services have distinct paths and distinct
    restart commands, so the round of one service never reads, writes or
    restarts another. *)
Theorem round_concerns_its_service (dev : Device) (paloalto : gmap string string)
    (fuel : nat) (service : string) (fw : Firewall) (results_list : loc) (w : World) :
  (∃ evs,
     history (main_loop_body dev paloalto fuel service fw results_list w).2
       = history w ++ evs ∧
     Forall (about_service service) evs) ∧
  (∀ service',
     base_xpath service' = base_xpath service ∨
     restart_service_command service' = restart_service_command service →
     service' = service).
Proof.
  split.
  - pose proof (service_time_sleep service).
    pose proof (service_get_fw_connection dev paloalto service).
    assert (steps (extends (about_service service))
              (main_loop_body dev paloalto fuel service fw results_list)) as Hsteps.
    { unfold main_loop_body, check_ciphers, compare_ciphers, set_ciphers,
        commit_config, restart_service, check_device_up.
      service_auto. apply service_while_down. }
    apply Hsteps.
  - intros service' [Heq|Heq].
    + by apply base_xpath_inj.
    + by apply restart_service_command_inj.
Qed.

(** ** The handle of the calls *)

Lemma handle_after_app dev pre cur (h1 h2 : list Event) :
  handle_after dev pre cur (h1 ++ h2)
  = handle_after dev (pre ++ h1) (handle_after dev pre cur h1) h2.
Proof.
  revert pre cur. induction h1 as [|ev h1 IH]; intros pre cur; simpl.
  - by rewrite app_nil_r.
  - rewrite IH. by rewrite <- app_assoc.
Qed.

Lemma well_handled_app dev pre cur (h1 h2 : list Event) :
  well_handled dev pre cur (h1 ++ h2)
  = well_handled dev pre cur h1
    && well_handled dev (pre ++ h1) (handle_after dev pre cur h1) h2.
Proof.
  revert pre cur. induction h1 as [|ev h1 IH]; intros pre cur; simpl.
  - by rewrite app_nil_r.
  - rewrite IH, <- app_assoc. simpl. by rewrite andb_assoc.
Qed.

(** What [well_handled] says of each call. *)
Lemma well_handled_call dev pre cur (h h1 h2 : list Event) ev fw :
  well_handled dev pre cur h = true →
  h = h1 ++ ev :: h2 → handle_of ev = Some fw →
  handle_after dev pre cur h1 = Some fw.
Proof.
  intros Hwell -> Hfw. rewrite well_handled_app in Hwell.
  apply andb_true_iff in Hwell as [_ Hwell]. simpl in Hwell.
  rewrite Hfw in Hwell. apply andb_true_iff in Hwell as [Hcur _].
  by apply bool_decide_eq_true_1 in Hcur.
Qed.

Lemma uses_handled dev pre fw (evs : list Event) :
  Forall (uses fw) evs →
  well_handled dev pre (Some fw) evs = true ∧
  handle_after dev pre (Some fw) evs = Some fw.
Proof.
  intros Huses. revert pre. induction Huses as [|ev evs Hev _ IH]; intros pre.
  - done.
  - simpl. destruct (IH (pre ++ [ev])) as [Hwell Hafter].
    destruct ev; simpl in *; try done;
      injection Hev as ->; rewrite ?bool_decide_eq_true_2; done.
Qed.

Section tracks.
Context (dev : Device).

Lemma tracks_uses {A} fw (m : M A) :
  steps (extends (uses fw)) m → tracks dev (Some fw) m (λ _, Some fw).
Proof.
  intros Hm w. destruct (Hm w) as (evs & Hevs & Huses). exists evs.
  destruct (uses_handled dev (history w) fw evs Huses) as [Hwell Hafter]. done.
Qed.

Lemma tracks_silent {A} cur (m : M A) :
  steps (extends (λ _, False)) m → tracks dev cur m (λ _, cur).
Proof.
  intros Hm w. destruct (Hm w) as (evs & Hevs & Hnone). exists evs.
  destruct evs as [|ev evs]; [done|]. by apply Forall_cons in Hnone as [[] _].
Qed.

Lemma tracks_post {A} cur (m : M A) (next next' : A → option Firewall) :
  (∀ a, next a = next' a) → tracks dev cur m next → tracks dev cur m next'.
Proof.
  intros Hnext Hm w. destruct (Hm w) as (evs & Hevs & Hwell & Hafter).
  exists evs. split; [done|]. split; [done|].
  intros a Ha. rewrite <- Hnext. by apply Hafter.
Qed.

Lemma tracks_ret {A} cur (a : A) (next : A → option Firewall) :
  next a = cur → tracks dev cur (mret a) next.
Proof.
  intros Hnext w. exists []. simpl. rewrite app_nil_r.
  split; [done|]. split; [done|]. by intros a' [= <-].
Qed.

Lemma tracks_raise {A} cur e (next : A → option Firewall) :
  tracks dev cur (raise e) next.
Proof. intros w. exists []. simpl. by rewrite app_nil_r. Qed.

Lemma tracks_out_of_fuel {A} cur (next : A → option Firewall) :
  tracks dev cur out_of_fuel next.
Proof. intros w. exists []. simpl. by rewrite app_nil_r. Qed.

Lemma tracks_bind {A B} cur (m : M A) (f : A → M B) next1 next2 :
  tracks dev cur m next1 → (∀ a, tracks dev (next1 a) (f a) next2) →
  tracks dev cur (m ≫= f) next2.
Proof.
  intros Hm Hf w. destruct (Hm w) as (evs1 & Hevs1 & Hwell1 & Hafter1).
  unfold mbind, M_bind. destruct (m w) as [[a|e|] w1]; simpl in *.
  - destruct (Hf a w1) as (evs2 & Hevs2 & Hwell2 & Hafter2).
    exists (evs1 ++ evs2). split; [by rewrite Hevs2, Hevs1, app_assoc|].
    rewrite well_handled_app, handle_after_app, (Hafter1 a eq_refl), <- Hevs1.
    split; [by rewrite Hwell1, Hwell2|done].
  - exists evs1. done.
  - exists evs1. done.
Qed.

Lemma tracks_ext {A} cur (m m' : M A) next :
  (∀ w, m w = m' w) → tracks dev cur m' next → tracks dev cur m next.
Proof. intros Heq Hm w. rewrite Heq. apply Hm. Qed.

Lemma tracks_reraise {A} cur e0 (m : M A) next :
  tracks dev cur m next → tracks dev cur (reraise_as e0 m) next.
Proof.
  intros Hm w. destruct (Hm w) as (evs & Hevs & Hwell & Hafter). exists evs.
  unfold reraise_as. destruct (m w) as [[a|e|] w1]; done.
Qed.

Lemma tracks_sleep cur n : tracks dev cur (time_sleep n) (λ _, cur).
Proof.
  unfold time_sleep.
  apply (tracks_bind _ _ _ (λ _, cur)); [apply tracks_silent; steps_auto|].
  intros _ w. by exists [EvSleep n].
Qed.

Lemma tracks_get_fw_connection paloalto cur :
  tracks dev cur (get_fw_connection dev paloalto) Some.
Proof.
  unfold get_fw_connection.
  apply (tracks_bind _ _ _ (λ _, cur)); [apply tracks_silent; steps_auto|]. intros key.
  apply (tracks_bind _ _ _ (λ _, cur)); [apply tracks_silent; steps_auto|]. intros fw_ip.
  apply (tracks_bind _ _ _ (λ _, cur)); [apply tracks_silent; steps_auto|]. intros _.
  apply (tracks_bind _ _ _ Some); [|intros fw; by apply tracks_ret].
  intros w. exists [EvConnect fw_ip key]. unfold external. simpl.
  destruct (firewall_Firewall dev (history w) fw_ip key) as [e|fw]; simpl; [done|].
  split; [done|]. split; [done|]. by intros a [= <-].
Qed.

Lemma tracks_while_down paloalto fuel status fw cur :
  (status ≠ "down" → cur = fw) →
  tracks dev cur (while_down dev paloalto fuel status fw) id.
Proof.
  revert status fw cur. induction fuel as [|fuel IH]; intros status fw cur Hcur; simpl.
  - case_bool_decide; [apply tracks_out_of_fuel|]. apply tracks_ret. by rewrite Hcur.
  - case_bool_decide; [|apply tracks_ret; by rewrite Hcur].
    apply (tracks_bind _ _ _ (λ p, p.2)); [|intros [status' fw']; by apply IH].
    eapply tracks_ext; [intros w; apply try_unbound_clause|].
    apply (tracks_bind _ _ _ Some).
    + apply tracks_reraise.
      apply (tracks_bind _ _ _ (λ _, cur)); [apply tracks_silent; steps_auto|].
      intros _. apply tracks_get_fw_connection.
    + intros fw'.
      apply (tracks_bind _ _ _ (λ _, Some fw')); [apply tracks_silent; steps_auto|].
      intros _. by apply tracks_ret.
Qed.

Lemma tracks_check_device_up paloalto fuel cur :
  tracks dev cur (check_device_up dev paloalto fuel) Some.
Proof.
  unfold check_device_up.
  apply (tracks_bind _ _ _ (λ _, cur)); [apply tracks_silent; steps_auto|]. intros _.
  apply (tracks_bind _ _ _ (λ _, cur)); [apply tracks_sleep|]. intros _.
  apply (tracks_bind _ _ _ id); [by apply tracks_while_down|].
  intros [fw|]; [by apply tracks_ret|apply tracks_raise].
Qed.

End tracks.

Ltac uses_auto := steps_auto; try (first [reflexivity | done]).

Lemma uses_check_ciphers dev fw service :
  steps (extends (uses fw)) (check_ciphers dev fw service).
Proof. unfold check_ciphers. uses_auto. Qed.

Lemma uses_set_ciphers dev fw service ciphers :
  steps (extends (uses fw)) (set_ciphers dev fw service ciphers).
Proof. unfold set_ciphers. uses_auto. Qed.

Lemma uses_commit_config dev fw : steps (extends (uses fw)) (commit_config dev fw).
Proof. unfold commit_config. uses_auto. Qed.

Lemma uses_restart_service dev fw service :
  steps (extends (uses fw)) (restart_service dev fw service).
Proof. unfold restart_service. uses_auto. Qed.

Lemma uses_restart_system dev fw : steps (extends (uses fw)) (restart_system dev fw).
Proof. unfold restart_system. uses_auto. Qed.

Lemma tracks_main_loop_body dev paloalto fuel service fw rl :
  tracks dev (Some fw) (main_loop_body dev paloalto fuel service fw rl)
    (λ '(fw', _, _), Some fw').
Proof.
  unfold main_loop_body.
  apply (tracks_bind _ _ _ _ (λ _, Some fw));
    [apply tracks_uses, uses_check_ciphers|]. intros C.
  apply (tracks_bind _ _ _ _ (λ _, Some fw)).
  { apply tracks_silent. unfold compare_ciphers. steps_auto. }
  intros [rl' status].
  apply (tracks_bind _ _ _ _ Some); [|intros fw'; by apply tracks_ret].
  case_bool_decide; [|by apply tracks_ret].
  apply (tracks_bind _ _ _ _ (λ _, Some fw));
    [apply tracks_uses, uses_set_ciphers|]. intros _.
  apply (tracks_bind _ _ _ _ (λ _, Some fw));
    [apply tracks_uses, uses_commit_config|]. intros _.
  apply (tracks_bind _ _ _ _ (λ _, Some fw));
    [apply tracks_uses, uses_restart_service|]. intros _.
  apply tracks_check_device_up.
Qed.

Lemma tracks_escalator dev fw rl :
  tracks dev (Some fw) (escalator dev fw rl) (λ _, Some fw).
Proof.
  unfold escalator, list_of_set.
  apply (tracks_bind _ _ _ _ (λ _, Some fw)); [apply tracks_silent; steps_auto|].
  intros rl'.
  apply (tracks_bind _ _ _ _ (λ _, Some fw)); [apply tracks_silent; steps_auto|].
  intros entries. case_bool_decide.
  - apply tracks_uses, uses_restart_system.
  - by apply tracks_ret.
Qed.

Lemma tracks_services_phase dev paloalto fuel :
  tracks dev None (services_phase dev paloalto fuel) (λ '(fw, _, _, _), Some fw).
Proof.
  unfold services_phase, main_prelude.
  apply (tracks_bind _ _ _ _ (λ '(fw, _), Some fw)).
  { apply (tracks_bind _ _ _ _ Some); [apply tracks_get_fw_connection|].
    intros fw. apply (tracks_bind _ _ _ _ (λ _, Some fw)).
    - apply tracks_silent. steps_auto.
    - intros rl. by apply tracks_ret. }
  intros [fw rl].
  apply (tracks_bind _ _ _ _ (λ '(fw', _, _), Some fw'));
    [apply tracks_main_loop_body|]. intros [[fw1 rl1] s1].
  apply (tracks_bind _ _ _ _ (λ '(fw', _, _), Some fw'));
    [apply tracks_main_loop_body|]. intros [[fw2 rl2] s2].
  by apply tracks_ret.
Qed.

(** X10. [main] never makes a call on a stale handle. In the history of a
    run, every read, write, commit and operational command is made on the
    handle returned by the latest connection before it: the first
    connection for the calls up to the first wait, and for the calls after
    a wait the connection made at the end of that wait. In particular no
    call on the device comes before a connection that succeeded. *)
Theorem calls_use_latest_handle (dev : Device) (paloalto : gmap string string)
    (fuel : nat) :
  let h := history (main dev paloalto fuel init_world).2 in
  well_handled dev [] None h = true ∧
  ∀ h1 ev h2 fw,
    h = h1 ++ ev :: h2 → handle_of ev = Some fw →
    handle_after dev [] None h1 = Some fw.
Proof.
  intros h. assert (well_handled dev [] None h = true) as Hwell.
  { subst h. rewrite main_phases.
    destruct (tracks_services_phase dev paloalto fuel init_world)
      as (evs1 & Hevs1 & Hwell1 & Hafter1).
    unfold mbind, M_bind.
    destruct (services_phase dev paloalto fuel init_world)
      as [[[[[fw rl] s1] s2]|e|] w1]; simpl in *; [|by rewrite Hevs1..].
    destruct (tracks_escalator dev fw rl w1) as (evs2 & Hevs2 & Hwell2 & _).
    rewrite Hevs2, Hevs1, well_handled_app, Hwell1. simpl.
    by rewrite (Hafter1 _ eq_refl), <- Hevs1. }
  split; [done|]. intros h1 ev h2 fw Heq Hfw.
  by eapply well_handled_call.
Qed.

Example handles_of_a_full_run :
  let h := history (main (recovering_device 0) sample_config 1 init_world).2 in
  h !! 1 = Some (EvGet 0 (base_xpath "mgmt")) ∧
  h !! 14 = Some (EvGet 1 (base_xpath "ha")) ∧
  h !! 27 = Some (EvOp 2 restart_system_command false) ∧
  length h = 28.
Proof. vm_compute. repeat split. Qed.

(** ** What the remediator prints *)

Lemma set_cipher_eq dev fw service cipher w :
  set_cipher dev fw service cipher w =
    match xapi_set dev (history w) fw (base_xpath service) ("<" +:+ cipher +:+ "/>") with
    | inl e => (Raise e, log (add_cipher fw service cipher) w)
    | inr results =>
        (Ok tt,
         {| history := history w ++ [add_cipher fw service cipher];
            stdout := stdout w ++
              [cipher +:+ " install " +:+ py_str (dict_get (attrib results) "status")];
            heap := heap w |})
    end.
Proof.
  unfold set_cipher, external, mbind, M_bind.
  by destruct (xapi_set _ _ _ _ _).
Qed.

Lemma set_cipher_loop_prints dev fw service (D : list string) w :
  ∃ (n : nat) (lines : list string),
    stdout (for_each D (set_cipher dev fw service) w).2 = stdout w ++ lines ∧
    Forall2 (λ cipher line, ∃ status, line = cipher +:+ " install " +:+ py_str status)
      (take n D) lines ∧
    match (for_each D (set_cipher dev fw service) w).1 with
    | Ok _ => n = length D
    | Raise _ =>
        n < length D ∧
        history (for_each D (set_cipher dev fw service) w).2
          = history w ++ (add_cipher fw service <$> take (S n) D)
    | OutOfFuel => False
    end.
Proof.
  revert w. induction D as [|c D IH]; intros w.
  - exists 0, []. simpl. by rewrite app_nil_r.
  - cbn [for_each]. unfold mbind, M_bind. rewrite set_cipher_eq.
    destruct (xapi_set dev (history w) fw (base_xpath service) ("<" +:+ c +:+ "/>"))
      as [e|results].
    + exists 0, []. simpl. rewrite app_nil_r, ?take_0.
      split; [done|]. split; [constructor|]. split; [lia|done].
    + match goal with |- context [for_each D _ ?w1] =>
        destruct (IH w1) as (n & lines & Hout & Hlines & Hres); revert Hout Hres;
        destruct (for_each D (set_cipher dev fw service) w1) as [[[]|e|] w2];
        simpl; intros Hout Hres
      end.
      * exists (S n),
          ((c +:+ " install " +:+ py_str (dict_get (attrib results) "status")) :: lines).
        rewrite Hout, <- app_assoc. simpl.
        split; [done|]. split; [constructor; eauto|]. by f_equal.
      * destruct Hres as [Hn Hhist].
        exists (S n),
          ((c +:+ " install " +:+ py_str (dict_get (attrib results) "status")) :: lines).
        rewrite Hout, <- app_assoc. simpl.
        split; [done|]. split; [constructor; eauto|]. split; [lia|].
        by rewrite Hhist, <- app_assoc.
      * done.
Qed.

(** X12. [set_ciphers] prints its heading, then one line for each write
    that the device accepted, in order, made of the name of the cipher, the
    word install and the status attribute of the answer; a write that
    raises prints nothing. When [set_ciphers] returns there is one line per
    cipher of the list; when it raises after [n] lines, the write of the
    cipher number [n] (counting from 0) is the one that raised and the last
    one made. *)
Theorem set_ciphers_prints (dev : Device) (fw : Firewall) (service : string)
    (D : list string) (w : World) :
  ∃ (n : nat) (lines : list string),
    stdout (set_ciphers dev fw service D w).2
      = stdout w ++ ("Setting " +:+ service +:+ " ciphers..." +:+ NL) :: lines ∧
    Forall2 (λ cipher line, ∃ status, line = cipher +:+ " install " +:+ py_str status)
      (take n D) lines ∧
    match (set_ciphers dev fw service D w).1 with
    | Ok _ => n = length D
    | Raise _ =>
        n < length D ∧
        history (set_ciphers dev fw service D w).2
          = history w ++ (add_cipher fw service <$> take (S n) D)
    | OutOfFuel => False
    end.
Proof.
  rewrite set_ciphers_unfold.
  destruct (set_cipher_loop_prints dev fw service D
              (print ("Setting " +:+ service +:+ " ciphers..." +:+ NL) w).2)
    as (n & lines & Hout & Hlines & Hres).
  exists n, lines. split; [|done].
  rewrite Hout. simpl. by rewrite <- app_assoc.
Qed.

Example set_ciphers_prints_status :
  stdout (set_ciphers (configured_device [] []) 0 "ha" ["aes128-cbc"; "aes256-gcm"]
            init_world).2
  = ["Setting ha ciphers..." +:+ NL;
     "aes128-cbc install success"; "aes256-gcm install success"].
Proof. vm_compute. reflexivity. Qed.
